(** * wingbot-facebook: the webhook gateway of [src/Facebook.js]

    A shallow embedding of the [Facebook] class: webhook verification
    ([verifyWebhook], [verifyRequest]), the thread-control rewriting of
    [processMessage], the sender-keyed grouping of [processEvent] and the
    promise chains that [_processEventsOfSender] builds with [reduce] and
    [then], followed by the properties the specification states about them. *)

From Stdlib Require Import List String Ascii Bool ZArith Lia Permutation.
From Stdlib Require Import DecimalString.
Import ListNotations.

Set Warnings "-register-all".

Local Open Scope string_scope.
Local Open Scope list_scope.

(** ** JavaScript numbers

    The gateway never computes with numbers: it only tests them for
    truthiness, compares them ([===], and SameValueZero inside [Map]) and
    prints them in a template literal.  IEEE doubles are therefore kept
    behind an interface that offers those four operations and the facts about
    them that the proofs use. *)

Class JsNumber (num : Type) : Type := {
  (** ToBoolean: false on [+0], [-0] and [NaN]. *)
  num_truthy : num -> bool;
  (** [a === b]. *)
  num_strict_eq : num -> num -> bool;
  (** SameValueZero, the key equality of [Map]. *)
  num_same_value_zero : num -> num -> bool;
  (** ToString, as a template literal applies it. *)
  num_to_string : num -> string;
  num_svz_refl : forall a, num_same_value_zero a a = true;
  num_svz_sym : forall a b, num_same_value_zero a b = num_same_value_zero b a;
  num_svz_trans : forall a b c,
    num_same_value_zero a b = true -> num_same_value_zero b c = true ->
    num_same_value_zero a c = true;
  num_strict_eq_truthy : forall a b,
    num_strict_eq a b = true -> num_truthy a = num_truthy b
}.

(** The safe integers, those of magnitude at most 2^53 - 1, are numbers:
    each is a double, none is [-0] or [NaN], and each prints as its decimal
    digits.  The concrete examples below use them. *)
Definition max_safe_integer : Z := 9007199254740991.

Record safe_integer : Type := {
  integer : Z;
  is_safe : Z.leb (Z.abs integer) max_safe_integer = true
}.

(** The safe integer [z], and [0] when [z] is out of range. *)
Definition int (z : Z) : safe_integer :=
  match Z.leb (Z.abs z) max_safe_integer as b
        return (Z.leb (Z.abs z) max_safe_integer = b -> safe_integer) with
  | true => fun H => {| integer := z; is_safe := H |}
  | false => fun _ => {| integer := 0; is_safe := eq_refl |}
  end eq_refl.

Definition decimal (z : Z) : string := NilZero.string_of_int (Z.to_int z).

#[export] Program Instance safe_integer_number : JsNumber safe_integer := {|
  num_truthy n := negb (Z.eqb (integer n) 0);
  num_strict_eq a b := Z.eqb (integer a) (integer b);
  num_same_value_zero a b := Z.eqb (integer a) (integer b);
  num_to_string n := decimal (integer n)
|}.
Next Obligation. apply Z.eqb_refl. Qed.
Next Obligation. apply Z.eqb_sym. Qed.
Next Obligation.
  rewrite Z.eqb_eq in *. congruence.
Qed.
Next Obligation.
  rewrite Z.eqb_eq in *. congruence.
Qed.

Section Gateway.

Context {num : Type} {NumOps : JsNumber num}.

(** [crypto.createHmac('sha1', key).update(body).digest('hex')], from Node's
    [crypto] module. *)
Variable hmac_sha1_hex : string -> string -> string.

(** ** Values *)

(** The values a decoded webhook body holds.  Objects and arrays carry the
    reference that [===] and [Map] compare them by. *)
Inductive value : Type :=
| VUndefined
| VNull
| VBool (b : bool)
| VNum (n : num)
| VStr (s : string)
| VObj (ref : nat) (props : list (string * value))
| VArr (ref : nat) (elems : list value).

(** A plain object seen through its own properties. *)
Definition props : Type := list (string * value).

(** ToBoolean. *)
Definition truthy (v : value) : bool :=
  match v with
  | VUndefined | VNull => false
  | VBool b => b
  | VNum n => num_truthy n
  | VStr s => negb (String.eqb s "")
  | VObj _ _ | VArr _ _ => true
  end.

(** [a === b]. *)
Definition strict_eq (a b : value) : bool :=
  match a, b with
  | VUndefined, VUndefined => true
  | VNull, VNull => true
  | VBool x, VBool y => Bool.eqb x y
  | VNum x, VNum y => num_strict_eq x y
  | VStr x, VStr y => String.eqb x y
  | VObj r _, VObj r' _ => Nat.eqb r r'
  | VArr r _, VArr r' _ => Nat.eqb r r'
  | _, _ => false
  end.

(** SameValueZero: how a [Map] compares keys. *)
Definition same_value_zero (a b : value) : bool :=
  match a, b with
  | VUndefined, VUndefined => true
  | VNull, VNull => true
  | VBool x, VBool y => Bool.eqb x y
  | VNum x, VNum y => num_same_value_zero x y
  | VStr x, VStr y => String.eqb x y
  | VObj r _, VObj r' _ => Nat.eqb r r'
  | VArr r _, VArr r' _ => Nat.eqb r r'
  | _, _ => false
  end.

(** Whether an object has an own property [k], whatever it holds. *)
Definition has_own (k : string) (o : list (string * value)) : bool :=
  existsb (fun kv => String.eqb k (fst kv)) o.

(** ToString of a template literal, [`${v}`]; [None] is the [TypeError] of
    a value that cannot be converted to a primitive.  A plain object prints
    through the [toString] it inherits, as [[object Object]]; with an own
    property [toString], which in decoded data holds no function, neither
    that nor [valueOf] gives a primitive and the conversion throws.  An
    array joins the printings of its elements with commas, [null] and
    [undefined] elements printing as nothing. *)
Fixpoint to_string (v : value) : option string :=
  match v with
  | VUndefined => Some "undefined"
  | VNull => Some "null"
  | VBool true => Some "true"
  | VBool false => Some "false"
  | VNum n => Some (num_to_string n)
  | VStr s => Some s
  | VObj _ o => if has_own "toString" o then None else Some "[object Object]"
  | VArr _ elems =>
      let element e :=
        match e with
        | VUndefined | VNull => Some ""
        | _ => to_string e
        end in
      (fix join (es : list value) : option string :=
         match es with
         | [] => Some ""
         | [e] => element e
         | e :: rest =>
             match element e, join rest with
             | Some first, Some others => Some (first ++ "," ++ others)%string
             | _, _ => None
             end
         end) elems
  end.

(** [o[k]] on an object given by its properties: [undefined] when absent. *)
Fixpoint lookup (k : string) (o : props) : value :=
  match o with
  | [] => VUndefined
  | (k', v) :: rest => if String.eqb k k' then v else lookup k rest
  end.

(** [v.k] for the keys this file reads ([id], [previous_owner_app_id]), on a
    receiver that is neither [null] nor [undefined]: every such access in the
    source sits behind a truthiness test of the receiver.  Primitives and
    arrays have no such property. *)
Definition get_prop (v : value) (k : string) : value :=
  match v with
  | VObj _ o => lookup k o
  | _ => VUndefined
  end.

(** [typeof v !== 'undefined'] *)
Definition defined (v : value) : bool :=
  match v with
  | VUndefined => false
  | _ => true
  end.

(** [a || b] *)
Definition js_or (a b : value) : value := if truthy a then a else b.

(** [a && b] *)
Definition js_and (a b : value) : value := if truthy a then b else a.

(** [s.split(sep)] for a one-character separator. *)
Fixpoint split (sep : ascii) (s : string) : list string :=
  match s with
  | EmptyString => [EmptyString]
  | String c rest =>
      if Ascii.eqb c sep then EmptyString :: split sep rest
      else match split sep rest with
           | [] => [String c EmptyString]
           | part :: parts => String c part :: parts
           end
  end.

(** ** Errors and results *)

(** What a call can throw, or a promise reject with. *)
Inductive thrown : Type :=
| ErrorWith (message : string) (code status : Z)
      (* Object.assign(new Error(message), { code, status }) *)
| TypeError
      (* raised by the runtime: calling a missing method, a bad HMAC key *)
| Failure (reason : value).
      (* whatever the processor throws or rejects with *)

Inductive outcome (A : Type) : Type :=
| Returns (a : A)
| Throws (e : thrown).
Arguments Returns {A} a.
Arguments Throws {A} e.

(** The constructor's [options]. *)
Record options : Type := {
  pageToken : value;
  appId : value;
  botToken : value;
  appSecret : value;
  passThreadAction : value;
  takeThreadAction : value;
  requestThreadAction : value
}.

Variable _options : options.

Definition _getUnauthorizedError (message : string) : thrown :=
  ErrorWith ("Unauthorized: " ++ message)%string 401 401.

(** ** Webhook verification *)

Definition verifyWebhook (queryString : props) : outcome value :=
  if negb (truthy (botToken _options)) then
    Throws (_getUnauthorizedError "Missing configuration (config.botToken)")
  else if negb (truthy (lookup "hub.verify_token" queryString)) then
    Throws (_getUnauthorizedError "Missing hub.verify_token in query")
  else if strict_eq (lookup "hub.verify_token" queryString) (botToken _options) then
    Returns (lookup "hub.challenge" queryString)
  else
    Throws (_getUnauthorizedError "Wrong hub.verify_token (config.botToken)").

(** [headers['x-hub-signature'] || headers['X-Hub-Signature']] *)
Definition signature_header (headers : props) : value :=
  js_or (lookup "x-hub-signature" headers) (lookup "X-Hub-Signature" headers).

(** [signature.split('=')[1]], [None] standing for [undefined]. *)
Definition signatureHash (signature : string) : option string :=
  nth_error (split "="%char signature) 1.

(** [verifyRequest]: the returned promise is already resolved, so success is
    [Returns tt]; every failure is a synchronous throw.  A truthy signature
    that is not a string has no [split] method, and a truthy [appSecret] that
    is not a string is no HMAC key: the runtime raises a [TypeError] there. *)
Definition verifyRequest (body : string) (headers : props) : outcome unit :=
  if negb (truthy (appSecret _options)) then Returns tt
  else
    let signature := signature_header headers in
    if negb (truthy signature) then
      Throws (_getUnauthorizedError "Missing X-Hub-Signature")
    else
      match signature with
      | VStr sig =>
          match appSecret _options with
          | VStr secret =>
              let expectedHash := hmac_sha1_hex secret body in
              match signatureHash sig with
              | Some hash =>
                  if String.eqb hash expectedHash then Returns tt
                  else Throws (_getUnauthorizedError
                                 "Couldn't validate the request signature.")
              | None =>
                  Throws (_getUnauthorizedError
                            "Couldn't validate the request signature.")
              end
          | _ => Throws TypeError
          end
      | _ => Throws TypeError
      end.

(** ** The decoded envelope *)

(** One element of [entry]: a page and its batch of messaging events. *)
Record page_entry : Type := {
  id : value;
  messaging : list props
}.

(** The webhook body. *)
Record webhook_body : Type := {
  object : value;
  entry : list page_entry
}.

(** [{ message, pageId }] *)
Record item : Type := {
  message : props;
  pageId : value
}.

Definition PROCESS_EVENTS : list string :=
  [ "postback";
    "referral";
    "optin";
    "pass_thread_control";
    "message";
    "request_thread_control";
    "take_thread_control";
    "read";
    "delivery" ].

(** [PROCESS_EVENTS.some(e => typeof message[e] !== 'undefined')] *)
Definition processable (message : props) : bool :=
  existsb (fun e => defined (lookup e message)) PROCESS_EVENTS.

(** [(message.sender && message.sender.id) || null] *)
Definition senderIdOf (message : props) : value :=
  js_or (js_and (lookup "sender" message)
                (get_prop (lookup "sender" message) "id"))
        VNull.

(** ** [Map]

    Keys in insertion order, compared with SameValueZero; [set] on a key
    already present keeps the key and its place. *)
Definition js_map : Type := list (value * list item).

Definition map_has (m : js_map) (k : value) : bool :=
  existsb (fun kv => same_value_zero (fst kv) k) m.

Fixpoint map_get (m : js_map) (k : value) : option (list item) :=
  match m with
  | [] => None
  | (k', v) :: rest => if same_value_zero k' k then Some v else map_get rest k
  end.

Fixpoint map_set (m : js_map) (k : value) (v : list item) : js_map :=
  match m with
  | [] => [(k, v)]
  | (k', v') :: rest =>
      if same_value_zero k' k then (k', v) :: rest
      else (k', v') :: map_set rest k v
  end.

(** [m.get(k).push(x)]: the array held by the map grows in place.  On a key
    that is absent [get] gives [undefined] and the call would throw;
    [processEvent] only pushes after it has made sure the key is there
    ([map_push_after_ensure] below), so the map is left as it is here. *)
Definition map_push (m : js_map) (k : value) (x : item) : js_map :=
  match map_get m k with
  | Some events => map_set m k (events ++ [x])
  | None => m
  end.

(** [Array.from(m.entries())] *)
Definition entries (m : js_map) : list (value * list item) := m.

(** ** Thread control and [processMessage] *)

(** The event handed to the processor: the incoming message itself, or the
    result of [Request.postBack(senderId, action, data, refAction, refData,
    timestamp)] from the wingbot library, kept as the call it is.  Both are
    objects, hence truthy. *)
Inductive chat_event : Type :=
| Incoming (message : props)
| PostBack (senderId action data refAction refData timestamp : value).

(** Modelled from the spec: the sender adapter of [./FacebookSender], the
    "sender-specific reply-capable adapter handle" the processor receives,
    kept as the arguments [new FacebookSender(options, senderId, message,
    ...)] is built from. *)
Record FacebookSender : Type := {
  sender_options : options;
  sender_senderId : value;
  sender_message : props
}.

(** The value of the local [event] when the [if] chain of [processMessage]
    is through, [None] being [null]; or the [TypeError] of the template
    literals that compare the previous owner with [appId], which are
    evaluated before [takeThreadAction] is looked at. *)
Definition event_of (message : props) (senderId : value)
  : outcome (option chat_event) :=
  if truthy (lookup "take_thread_control" message) then
    match to_string (get_prop (lookup "take_thread_control" message)
                              "previous_owner_app_id"),
          to_string (appId _options) with
    | Some previous_owner, Some own =>
        let takeToSelf := String.eqb previous_owner own in
        if truthy (takeThreadAction _options) && negb takeToSelf then
          Returns (Some (PostBack senderId (takeThreadAction _options)
                                  (lookup "take_thread_control" message)
                                  VNull VNull (lookup "timestamp" message)))
        else Returns None
    | _, _ => Throws TypeError
    end
  else if truthy (lookup "pass_thread_control" message) then
    if truthy (passThreadAction _options) then
      Returns (Some (PostBack senderId (passThreadAction _options)
                              (lookup "pass_thread_control" message)
                              VNull VNull (lookup "timestamp" message)))
    else Returns None
  else if truthy (lookup "request_thread_control" message) then
    if truthy (requestThreadAction _options) then
      Returns (Some (PostBack senderId (requestThreadAction _options)
                              (lookup "request_thread_control" message)
                              VNull VNull (lookup "timestamp" message)))
    else Returns None
  else Returns (Some (Incoming message)).

(** [{ status }], what a dispatch resolves with. *)
Record status_record : Type := { status : Z }.

(** [this.processor.processMessage(event, pageId, messageSender)] *)
Record processor_call : Type := {
  call_event : chat_event;
  call_pageId : value;
  call_messageSender : FacebookSender
}.

(** What [processMessage] does: it returns a promise already resolved with
    [{ status: 201 }], or the promise of the processor it has just called,
    or it throws before it has called anything. *)
Inductive processing : Type :=
| Resolved (r : status_record)
| Dispatched (c : processor_call)
| Threw (e : thrown).

Definition processMessage (message : props) (senderId pageId : value)
  : processing :=
  let messageSender :=
    {| sender_options := _options;
       sender_senderId := senderId;
       sender_message := message |} in
  match event_of message senderId with
  | Throws e => Threw e
  | Returns None => Resolved {| status := 201 |}
  | Returns (Some event) =>
      Dispatched {| call_event := event;
                    call_pageId := pageId;
                    call_messageSender := messageSender |}
  end.

(** ** Promises

    The promises [_processEventsOfSender] builds, as terms: a settled
    promise, the pending promise of a processor call, and [p.then(() =>
    this.processMessage(message, senderId, pageId))], whose callback is kept
    as the data it closes over. *)
Inductive promise : Type :=
| Fulfilled (v : option status_record)     (* [None]: [Promise.resolve()] *)
| Rejected (e : thrown)
| Pending (c : processor_call)
| Then (p : promise) (senderId : value) (x : item).

(** [events.reduce((promise, { message, pageId }) => promise.then(...),
    Promise.resolve())] *)
Definition _processEventsOfSender (senderId : value) (events : list item)
  : promise :=
  fold_left (fun promise x => Then promise senderId x)
            events (Fulfilled None).

(** What the event loop can do to one promise: run its next reaction job, or
    let the processor settle the call in flight. *)
Inductive action : Type :=
| RunJob
| Settles (r : outcome status_record).

(** What the processor sees. *)
Inductive observation : Type :=
| Called (c : processor_call)
| Settled (c : processor_call) (r : outcome status_record).

(** One step of a promise, with what the processor observed meanwhile.
    - a pending call settles as the processor decides;
    - [p.then(cb)] with [p] fulfilled runs [cb] and follows the promise it
      returns, or rejects with what [cb] throws; a processor that throws
      inside [cb] is a call that settles with [Throws];
    - [p.then(cb)] with [p] rejected rejects with the same reason, [cb]
      unused;
    - otherwise the step is one of [p]. *)
Fixpoint step_promise (a : action) (p : promise)
  : option (promise * list observation) :=
  match p with
  | Fulfilled _ | Rejected _ => None
  | Pending c =>
      match a with
      | Settles (Returns r) => Some (Fulfilled (Some r), [Settled c (Returns r)])
      | Settles (Throws e) => Some (Rejected e, [Settled c (Throws e)])
      | RunJob => None
      end
  | Then (Fulfilled _) senderId x =>
      match a with
      | RunJob =>
          match processMessage (message x) senderId (pageId x) with
          | Resolved r => Some (Fulfilled (Some r), [])
          | Dispatched c => Some (Pending c, [Called c])
          | Threw e => Some (Rejected e, [])
          end
      | Settles _ => None
      end
  | Then (Rejected e) _ _ =>
      match a with
      | RunJob => Some (Rejected e, [])
      | Settles _ => None
      end
  | Then q senderId x =>
      match step_promise a q with
      | Some (q', obs) => Some (Then q' senderId x, obs)
      | None => None
      end
  end.

(** ** [processEvent] *)

(** The body of the inner [forEach]. *)
Definition group_message (pageId : value)
  (acc : js_map * list item) (message : props) : js_map * list item :=
  let (eventsBySenderId, otherEvents) := acc in
  if processable message then
    let senderId := senderIdOf message in
    let eventsBySenderId :=
      if negb (map_has eventsBySenderId senderId)
      then map_set eventsBySenderId senderId []
      else eventsBySenderId in
    (map_push eventsBySenderId senderId
              {| message := message; pageId := pageId |},
     otherEvents)
  else
    (eventsBySenderId,
     otherEvents ++ [{| message := message; pageId := pageId |}]).

(** The body of the outer [forEach]. *)
Definition group_entry (acc : js_map * list item) (event : page_entry)
  : js_map * list item :=
  fold_left (group_message (id event)) (messaging event) acc.

(** [eventsBySenderId] and [otherEvents] once both loops are through. *)
Definition grouping (body : webhook_body) : js_map * list item :=
  fold_left group_entry (entry body) ([], []).

(** Where the [async] call stands: suspended at [await Promise.all(process)]
    with [otherEvents] in hand, or settled. *)
Inductive call_state : Type :=
| Awaiting (otherEvents : list item)
| Done (r : outcome (list item)).

(** A call of [processEvent] in flight: the array [process] of per-sender
    promises, the call itself, and what the processor has observed so far,
    each observation tagged with the index of its promise in [process]. *)
Record gateway_state : Type := {
  process : list promise;
  call : call_state;
  trace : list (nat * observation)
}.

(** [processEvent] up to its first suspension. *)
Definition processEvent (body : webhook_body) : gateway_state :=
  if negb (strict_eq (object body) (VStr "page")) then
    {| process := []; call := Done (Returns []); trace := [] |}
  else
    let (eventsBySenderId, otherEvents) := grouping body in
    {| process :=
         map (fun '(senderId, events) => _processEventsOfSender senderId events)
             (entries eventsBySenderId);
       call := Awaiting otherEvents;
       trace := [] |}.

(** What the event loop does next. *)
Inductive tick : Type :=
| Job (i : nat)                                (* a reaction job of [process[i]] *)
| Settle (i : nat) (r : outcome status_record) (* the call of [process[i]] in flight settles *)
| JoinFulfil                                   (* [Promise.all] fulfils: the call returns *)
| JoinReject (i : nat).                        (* [Promise.all] rejects with the reason of [process[i]] *)

Fixpoint replace_nth {A : Type} (i : nat) (x : A) (l : list A) : list A :=
  match l, i with
  | [], _ => []
  | _ :: rest, O => x :: rest
  | y :: rest, S j => y :: replace_nth j x rest
  end.

Definition is_fulfilled (p : promise) : bool :=
  match p with
  | Fulfilled _ => true
  | _ => false
  end.

Definition advance (i : nat) (a : action) (st : gateway_state)
  : option gateway_state :=
  match nth_error (process st) i with
  | Some p =>
      match step_promise a p with
      | Some (p', obs) =>
          Some {| process := replace_nth i p' (process st);
                  call := call st;
                  trace := trace st ++ map (pair i) obs |}
      | None => None
      end
  | None => None
  end.

(** One step of the event loop; [None] when the step is not enabled.
    [Promise.all] fulfils once every promise of [process] has, and rejects
    with the reason of a promise that has rejected, whatever the others are
    doing; [await] then resumes the call, which returns [otherEvents] or
    throws the reason.  [Promise.all] takes the rejection that reaches it
    first; which one that is depends on the order of the jobs, so the step
    is enabled for any promise of [process] that has rejected. *)
Definition step (t : tick) (st : gateway_state) : option gateway_state :=
  match t with
  | Job i => advance i RunJob st
  | Settle i r => advance i (Settles r) st
  | JoinFulfil =>
      match call st with
      | Awaiting otherEvents =>
          if forallb is_fulfilled (process st)
          then Some {| process := process st;
                       call := Done (Returns otherEvents);
                       trace := trace st |}
          else None
      | Done _ => None
      end
  | JoinReject i =>
      match call st, nth_error (process st) i with
      | Awaiting _, Some (Rejected e) =>
          Some {| process := process st;
                  call := Done (Throws e);
                  trace := trace st |}
      | _, _ => None
      end
  end.

(** A schedule, run from a state. *)
Fixpoint run (schedule : list tick) (st : gateway_state)
  : option gateway_state :=
  match schedule with
  | [] => Some st
  | t :: rest =>
      match step t st with
      | Some st' => run rest st'
      | None => None
      end
  end.

(** ** Vocabulary of the properties *)

(** Every [{ message, pageId }] of the envelope, in the order the two
    [forEach] loops visit them. *)
Definition all_items (body : webhook_body) : list item :=
  flat_map (fun event =>
              map (fun message => {| message := message; pageId := id event |})
                  (messaging event))
           (entry body).

(** The processor calls a sender's queue gives rise to, in queue order:
    one per event that [processMessage] does not discard, up to the first
    event on which it throws. *)
Fixpoint calls_of (senderId : value) (events : list item)
  : list processor_call :=
  match events with
  | [] => []
  | x :: rest =>
      match processMessage (message x) senderId (pageId x) with
      | Dispatched c => c :: calls_of senderId rest
      | Resolved _ => calls_of senderId rest
      | Threw _ => []
      end
  end.

(** Whether [processMessage] gets through the template literals of an
    event: it does on an event without [take_thread_control], and on one
    whose previous owner and the configured [appId] both print. *)
Definition printable (message : props) : bool :=
  if truthy (lookup "take_thread_control" message) then
    match to_string (get_prop (lookup "take_thread_control" message)
                              "previous_owner_app_id"),
          to_string (appId _options) with
    | Some _, Some _ => true
    | _, _ => false
    end
  else true.

(** The calls a queue gives rise to, read off [event_of]: one for each
    event that it turns into an event for the processor. *)
Definition handed_over (senderId : value) (events : list item)
  : list processor_call :=
  flat_map (fun x =>
              match event_of (message x) senderId with
              | Returns (Some event) =>
                  [ {| call_event := event;
                       call_pageId := pageId x;
                       call_messageSender :=
                         {| sender_options := _options;
                            sender_senderId := senderId;
                            sender_message := message x |} |} ]
              | _ => []
              end)
           events.

(** What the processor observed for [process[i]]. *)
Definition task_trace (i : nat) (tr : list (nat * observation))
  : list observation :=
  map snd (filter (fun io => Nat.eqb (fst io) i) tr).

(** The calls among some observations, in order. *)
Fixpoint called (tr : list observation) : list processor_call :=
  match tr with
  | [] => []
  | Called c :: rest => c :: called rest
  | Settled _ _ :: rest => called rest
  end.

(** [sequential tr inflight]: in [tr] every call is settled before the next
    one is made, [inflight] being the call still open at the end, if any. *)
Inductive sequential : list observation -> option processor_call -> Prop :=
| sequential_nil :
    sequential [] None
| sequential_called tr c :
    sequential tr None ->
    sequential (tr ++ [Called c]) (Some c)
| sequential_settled tr c r :
    sequential tr (Some c) ->
    sequential (tr ++ [Settled c r]) None.

(** A promise that is no longer pending. *)
Definition is_settled (p : promise) : bool :=
  match p with
  | Fulfilled _ | Rejected _ => true
  | Pending _ | Then _ _ _ => false
  end.

(** The reading of the specification's error contract: a call that has
    thrown has done so with every promise of [process] settled. *)
Definition reports_after_all_settled (st : gateway_state) : bool :=
  match call st with
  | Done (Throws _) => forallb is_settled (process st)
  | _ => true
  end.

Definition ascii_to_lower (c : ascii) : ascii :=
  let n := nat_of_ascii c in
  if (Nat.leb 65 n && Nat.leb n 90)%bool then ascii_of_nat (n + 32) else c.

Fixpoint to_lower (s : string) : string :=
  match s with
  | EmptyString => EmptyString
  | String c rest => String (ascii_to_lower c) (to_lower rest)
  end.

(** The reading of the specification's header map: the value of the first
    header whose name is [name] in whatever casing. *)
Fixpoint spec_header_lookup (name : string) (headers : props) : value :=
  match headers with
  | [] => VUndefined
  | (k, v) :: rest =>
      if String.eqb (to_lower k) name then v
      else spec_header_lookup name rest
  end.

(** The two loops seen from one [{ message, pageId }]. *)
Definition group_item (acc : js_map * list item) (x : item)
  : js_map * list item :=
  group_message (pageId x) acc (message x).

(** The queue an event belongs to, and the events that belong to none. *)
Definition in_queue (k : value) (x : item) : bool :=
  processable (message x) && same_value_zero k (senderIdOf (message x)).

Definition passes_through (x : item) : bool :=
  negb (processable (message x)).

(** No two keys of the map are the same key. *)
Fixpoint keys_distinct (m : js_map) : Prop :=
  match m with
  | [] => True
  | (k, _) :: rest => map_has rest k = false /\ keys_distinct rest
  end.

(** [x] appended to the queue of the first key that is [k]. *)
Fixpoint push_first (m : js_map) (k : value) (x : item) : js_map :=
  match m with
  | [] => []
  | (k', q) :: rest =>
      if same_value_zero k' k then (k', q ++ [x]) :: rest
      else (k', q) :: push_first rest k x
  end.

(** What the loops maintain, [l] being the events visited so far. *)
Record grouped (l : list item) (m : js_map) (o : list item) : Prop := {
  grouped_others : o = filter passes_through l;
  grouped_queues :
    forall k q, In (k, q) m -> q <> [] /\ q = filter (in_queue k) l;
  grouped_keys : keys_distinct m;
  grouped_covers :
    forall x, In x l -> processable (message x) = true ->
              map_has m (senderIdOf (message x)) = true;
  grouped_perm : Permutation (List.concat (map snd m) ++ o) l
}.

(** The promise a queue has become while running: [then] callbacks for the
    events still to come, on top of [base]. *)
Definition chain (base : promise) (senderId : value) (events : list item)
  : promise :=
  fold_left (fun promise x => Then promise senderId x) events base.

(** What holds of [process[i]] and of what the processor observed for it,
    [events] being the queue it was built from. *)
Definition queue_invariant (senderId : value) (events : list item)
  (p : promise) (tr : list observation) : Prop :=
  exists done rest base,
    events = done ++ rest /\ p = chain base senderId rest /\
    match base with
    | Fulfilled _ =>
        sequential tr None /\ called tr = calls_of senderId done /\
        forallb (fun x => printable (message x)) done = true
    | Pending c =>
        sequential tr (Some c) /\ called tr = calls_of senderId done /\
        forallb (fun x => printable (message x)) done = true
    | Rejected e =>
        sequential tr None /\
        (exists skipped, calls_of senderId events = called tr ++ skipped) /\
        ((exists c, In (Settled c (Throws e)) tr) \/
         (exists x, In x events /\ printable (message x) = false /\
                    e = TypeError))
    | Then _ _ _ => False
    end.

(** What holds of a call of [processEvent] in flight, [queues] being the
    entries of the map it grouped the events into. *)
Definition gateway_invariant (queues : list (value * list item))
  (st : gateway_state) : Prop :=
  List.length (process st) = List.length queues /\
  (forall i o, In (i, o) (trace st) -> i < List.length queues) /\
  forall i senderId events,
    nth_error queues i = Some (senderId, events) ->
    exists p, nth_error (process st) i = Some p /\
              queue_invariant senderId events p (task_trace i (trace st)).

(** A schedule on which every processor call succeeds: the queues run one
    after the other, each to its end, and [Promise.all] then fulfils.  A
    queue on which [processMessage] throws runs to its rejection, and the
    join at the end is then not enabled. *)
Definition settle_ok : outcome status_record := Returns {| status := 200 |}.

Fixpoint queue_schedule (i : nat) (senderId : value) (events : list item)
  : list tick :=
  match events with
  | [] => []
  | x :: rest =>
      match processMessage (message x) senderId (pageId x) with
      | Resolved _ => Job i :: queue_schedule i senderId rest
      | Dispatched _ =>
          Job i :: Settle i settle_ok :: queue_schedule i senderId rest
      | Threw _ => Job i :: repeat (Job i) (List.length rest)
      end
  end.

Fixpoint queues_schedule (i : nat) (queues : list (value * list item))
  : list tick :=
  match queues with
  | [] => []
  | (senderId, events) :: rest =>
      queue_schedule i senderId events ++ queues_schedule (S i) rest
  end.

Definition all_succeed (body : webhook_body) : list tick :=
  queues_schedule 0 (entries (fst (grouping body))) ++ [JoinFulfil].

(** ** Vocabulary of the further properties *)

(** The promise at the bottom of a tower of [then]s. *)
Fixpoint bottom (p : promise) : promise :=
  match p with
  | Then q _ _ => bottom q
  | _ => p
  end.

(** How the call stands to the promises it awaits, [otherEvents] being the
    list the grouping produced. *)
Definition call_invariant (otherEvents : list item) (st : gateway_state)
  : Prop :=
  match call st with
  | Awaiting others => others = otherEvents
  | Done (Returns others) =>
      others = otherEvents /\ forallb is_fulfilled (process st) = true
  | Done (Throws e) => exists i, nth_error (process st) i = Some (Rejected e)
  end.

(** Every queue of the map is keyed by the sender id of its first event. *)
Definition keyed_by_first (m : js_map) : Prop :=
  forall k q, In (k, q) m ->
    exists x rest, q = x :: rest /\ k = senderIdOf (message x).

(** Every promise of [process] is a queue under way. *)
Definition queues_under_way (st : gateway_state) : Prop :=
  forall i p, nth_error (process st) i = Some p ->
    exists base senderId rest,
      p = chain base senderId rest /\
      match base with Then _ _ _ => False | _ => True end.

(** Whether a character occurs in a string. *)
Fixpoint has_char (c : ascii) (s : string) : bool :=
  match s with
  | EmptyString => false
  | String c' rest => Ascii.eqb c' c || has_char c rest
  end.

End Gateway.

Arguments Returns {num A} a.
Arguments Throws {num A} e.

(** * The profile settings of [src/Settings.js]

    [Settings] sends the bot's profile (greeting, get-started button, domain
    whitelist, persistent menu) to the platform through a request library.
    A method is embedded as its result together with what it did on the
    way: the requests it handed to a library and the errors it logged. *)

Section SettingsModel.

Context {num : Type} {NumOps : JsNumber num}.

(** The [json] option of a request: the data to send, or [true]. *)
Inductive json_option : Type :=
| JsonData (data : @props num)
| JsonTrue.

(** The options a request library is called with. *)
Record request_options : Type := {
  uri : string;
  qs : @props num;
  method : string;
  json : json_option
}.

(** The two request libraries in play: [this.request], which the
    constructor takes ([req]), and the module's own [request]. *)
Inductive library : Type :=
| ThisRequest
| ModuleRequest.

(** What a method does besides returning. *)
Inductive effect : Type :=
| Request (via : library) (options : request_options)
| LogError (message : string) (e : @thrown num).   (* [this.log.error(message, e)] *)

(** [this.token] *)
Variable token : @value num.

(** What the promise a library returns settles with. *)
Variable respond : library -> request_options -> @outcome num (@value num).

(** [deepEqual] of fast-deep-equal. *)
Variable deepEqual : @value num -> @value num -> bool.

(** [n === 0] *)
Variable is_zero : num -> bool.

(** A result with the effects that led to it. *)
Definition io (A : Type) : Type := A * list effect.

Definition ret {A : Type} (a : A) : io A := (a, []).

Definition bind {A B : Type} (m : io A) (k : A -> io B) : io B :=
  let (a, fx) := m in
  let (b, fx') := k a in
  (b, fx ++ fx').

(** [promise.then(onFulfilled)] *)
Definition then_ {A B : Type} (m : io (@outcome num A))
  (onFulfilled : A -> io (@outcome num B)) : io (@outcome num B) :=
  bind m (fun r =>
    match r with
    | Returns a => onFulfilled a
    | Throws e => ret (Throws e)
    end).

(** [promise.catch(onRejected)] *)
Definition catch {A : Type} (m : io (@outcome num A))
  (onRejected : @thrown num -> io (@outcome num A)) : io (@outcome num A) :=
  bind m (fun r =>
    match r with
    | Returns a => ret (Returns a)
    | Throws e => onRejected e
    end).

(** A call of a request library. *)
Definition request_with (via : library) (options : request_options)
  : io (@outcome num (@value num)) :=
  (respond via options, [Request via options]).

(** [this.log.error('Bot settings failed', e)], of a console-like logger:
    it returns [undefined]. *)
Definition log_error (e : @thrown num) : io (@value num) :=
  (VUndefined, [LogError "Bot settings failed" e]).

Definition messenger_profile : string :=
  "https://graph.facebook.com/v2.8/me/messenger_profile".

Definition _post (data : @props num) : io (@outcome num (@value num)) :=
  catch (request_with ThisRequest
           {| uri := messenger_profile;
              qs := [("access_token", token)];
              method := "POST";
              json := JsonData data |})
        (fun e => bind (log_error e) (fun v => ret (Returns v))).

(** [fields] is [None] for the default [null]; an array is truthy, so any
    array given ends up in the query, joined with commas. *)
Definition _get (fields : option (list string))
  : io (@outcome num (@value num)) :=
  let queryString :=
    match fields with
    | Some names =>
        [("access_token", token); ("fields", VStr (String.concat "," names))]
    | None => [("access_token", token)]
    end in
  catch (request_with ModuleRequest
           {| uri := messenger_profile;
              qs := queryString;
              method := "GET";
              json := JsonTrue |})
        (fun e => bind (log_error e) (fun _ => ret (Throws e))).

Definition _delete (data : @props num) : io (@outcome num (@value num)) :=
  catch (request_with ModuleRequest
           {| uri := messenger_profile;
              qs := [("access_token", token)];
              method := "DELETE";
              json := JsonData data |})
        (fun e => bind (log_error e) (fun v => ret (Returns v))).

(** The reference of an object or array literal: a fresh one, which nothing
    in this file compares with another. *)
Definition literal : nat := 0.

Definition greeting (text : @value num) : io (@outcome num (@value num)) :=
  if truthy text then
    _post [("greeting",
            VArr literal
              [VObj literal [("locale", VStr "default"); ("text", text)]])]
  else
    _delete [("fields", VArr literal [VStr "greeting"])].

Definition getStartedButton (payload : @value num)
  : io (@outcome num (@value num)) :=
  if truthy payload then
    _post [("get_started", VObj literal [("payload", payload)])]
  else
    _delete [("fields", VArr literal [VStr "get_started"])].

(** [dom.replace(/\/$/, '')]: a slash that ends the string is dropped. *)
Fixpoint strip_trailing_slash (dom : string) : string :=
  match dom with
  | EmptyString => EmptyString
  | String c rest =>
      match rest with
      | EmptyString => if Ascii.eqb c "/" then EmptyString else dom
      | String _ _ => String c (strip_trailing_slash rest)
      end
  end.

(** [list.map(dom => dom.replace(/\/$/, ''))]: an element that is not a
    string has no [replace] to call. *)
Fixpoint strip_all (doms : list (@value num))
  : @outcome num (list (@value num)) :=
  match doms with
  | [] => Returns []
  | VStr dom :: rest =>
      match strip_all rest with
      | Returns stripped => Returns (VStr (strip_trailing_slash dom) :: stripped)
      | Throws e => Throws e
      end
  | _ :: _ => Throws TypeError
  end.

(** [whitelistDomain]: what is neither a string nor an array has no [map];
    the [TypeError] of a bad argument is thrown before any request. *)
Definition whitelistDomain (domains : @value num)
  : io (@outcome num (@value num)) :=
  let doms :=
    match domains with
    | VStr _ => Returns [domains]
    | VArr _ elems => Returns elems
    | _ => Throws TypeError
    end in
  match doms with
  | Throws e => ret (Throws e)
  | Returns doms =>
      match strip_all doms with
      | Throws e => ret (Throws e)
      | Returns doms => _post [("whitelisted_domains", VArr literal doms)]
      end
  end.

(** [v.k] where [v] may be anything: [null] and [undefined] have no
    properties to read. *)
Definition member (v : @value num) (k : string) : @outcome num (@value num) :=
  match v with
  | VUndefined | VNull => Throws TypeError
  | _ => Returns (get_prop v k)
  end.

(** [data.length === 0] *)
Definition length_is_zero (data : @value num) : @outcome num bool :=
  match data with
  | VUndefined | VNull => Throws TypeError
  | VArr _ elems => Returns (match elems with [] => true | _ => false end)
  | VStr s => Returns (String.eqb s "")
  | VObj _ o =>
      Returns (match lookup "length" o with VNum n => is_zero n | _ => false end)
  | VBool _ | VNum _ => Returns false
  end.

(** [data[0]] *)
Definition first_of (data : @value num) : @value num :=
  match data with
  | VArr _ (e :: _) => e
  | VStr (String c _) => VStr (String c EmptyString)
  | VObj _ o => lookup "0" o
  | _ => VUndefined
  end.

(** The callback of [then] in [menu], up to [updateMenu]. *)
Definition updateMenu (newMenu result : @value num) : @outcome num bool :=
  match member result "data" with
  | Throws e => Throws e
  | Returns data =>
      match length_is_zero data with
      | Throws e => Throws e
      | Returns true => Returns true
      | Returns false =>
          match member (first_of data) "persistent_menu" with
          | Throws e => Throws e
          | Returns existingMenu =>
              Returns (negb (deepEqual newMenu existingMenu))
          end
      end
  end.

(** The function [menu] hands to [MenuComposer], which calls it with the
    menu composed: fetch the menu in place, post the new one when there is
    none or another one, log whatever fails. *)
Definition menu_done (newMenu : @value num) : io (@outcome num (@value num)) :=
  catch
    (then_ (_get (Some ["persistent_menu"]))
       (fun result =>
          match updateMenu newMenu result with
          | Throws e => ret (Throws e)
          | Returns false => ret (Returns VUndefined)
          | Returns true => _post [("persistent_menu", newMenu)]
          end))
    (fun e => bind (log_error e) (fun v => ret (Returns v))).

(** ** Vocabulary of the properties *)

(** The options of the requests the methods make. *)
Definition post_options (data : @props num) : request_options :=
  {| uri := messenger_profile;
     qs := [("access_token", token)];
     method := "POST";
     json := JsonData data |}.

Definition delete_options (data : @props num) : request_options :=
  {| uri := messenger_profile;
     qs := [("access_token", token)];
     method := "DELETE";
     json := JsonData data |}.

Definition get_menu_options : request_options :=
  {| uri := messenger_profile;
     qs := [("access_token", token); ("fields", VStr "persistent_menu")];
     method := "GET";
     json := JsonTrue |}.

(** The methods above, as one call. *)
Inductive settings_call : Type :=
| Greeting (text : @value num)
| GetStartedButton (payload : @value num)
| WhitelistDomain (domains : @value num)
| MenuDone (newMenu : @value num).

Definition perform (c : settings_call) : io (@outcome num (@value num)) :=
  match c with
  | Greeting text => greeting text
  | GetStartedButton payload => getStartedButton payload
  | WhitelistDomain domains => whitelistDomain domains
  | MenuDone newMenu => menu_done newMenu
  end.

(** Whether a string ends with a slash. *)
Fixpoint ends_with_slash (s : string) : bool :=
  match s with
  | EmptyString => false
  | String c rest =>
      match rest with
      | EmptyString => Ascii.eqb c "/"
      | String _ _ => ends_with_slash rest
      end
  end.

(** [typeof v === 'string'] *)
Definition is_string (v : @value num) : bool :=
  match v with
  | VStr _ => true
  | _ => false
  end.

(** The string of a string value. *)
Definition string_of (v : @value num) : string :=
  match v with
  | VStr s => s
  | _ => EmptyString
  end.

(** The requests among some effects, in order. *)
Fixpoint requests (fx : list effect) : list (library * request_options) :=
  match fx with
  | [] => []
  | Request via options :: rest => (via, options) :: requests rest
  | LogError _ _ :: rest => requests rest
  end.

End SettingsModel.

(** ** Concrete data

    Integers for numbers, and a stand-in for the HMAC that prints the key
    and the body side by side. *)
Module Example.

Definition hmac (key body : string) : string := (key ++ ":" ++ body)%string.

Definition val : Type := @value safe_integer.

Definition config : @options safe_integer :=
  {| pageToken := VStr "page-token";
     appId := VStr "123";
     botToken := VStr "bot-token";
     appSecret := VStr "secret";
     passThreadAction := VUndefined;
     takeThreadAction := VStr "/take";
     requestThreadAction := VUndefined |}.

Definition open_config : @options safe_integer :=
  {| pageToken := VStr "page-token";
     appId := VStr "123";
     botToken := VUndefined;
     appSecret := VUndefined;
     passThreadAction := VStr "/pass";
     takeThreadAction := VUndefined;
     requestThreadAction := VStr "/request" |}.

Definition sender (ref : nat) (name : string) : string * val :=
  ("sender", VObj ref [("id", VStr name)]).

Definition text_of_A : @props safe_integer :=
  [sender 1 "A"; ("timestamp", VNum (int 10));
   ("message", VObj 2 [("text", VStr "hello")])].

Definition text_of_B : @props safe_integer :=
  [sender 3 "B"; ("timestamp", VNum (int 11));
   ("message", VObj 4 [("text", VStr "hi")])].

Definition second_of_A : @props safe_integer :=
  [sender 5 "A"; ("timestamp", VNum (int 12));
   ("postback", VObj 6 [("payload", VStr "/start")])].

Definition take_from_self : @props safe_integer :=
  [sender 7 "A"; ("timestamp", VNum (int 13));
   ("take_thread_control", VObj 8 [("previous_owner_app_id", VNum (int 123))])].

Definition take_from_other : @props safe_integer :=
  [sender 9 "A"; ("timestamp", VNum (int 14));
   ("take_thread_control", VObj 10 [("previous_owner_app_id", VNum (int 456))])].

(** A [take_thread_control] event whose previous owner is an object with a
    [toString] property of its own, as [JSON.parse] gives for
    [{"previous_owner_app_id": {"toString": 1}}]. *)
Definition take_from_unprintable : @props safe_integer :=
  [sender 17 "A"; ("timestamp", VNum (int 19));
   ("take_thread_control",
    VObj 18 [("previous_owner_app_id", VObj 19 [("toString", VNum (int 1))])])].

Definition pass_to_us : @props safe_integer :=
  [sender 11 "A"; ("timestamp", VNum (int 15));
   ("pass_thread_control", VObj 12 [("new_owner_app_id", VNum (int 123))])].

Definition request_of_us : @props safe_integer :=
  [sender 13 "B"; ("timestamp", VNum (int 16));
   ("request_thread_control", VObj 14 [("requested_owner_app_id", VNum (int 456))])].

Definition account_linking : @props safe_integer :=
  [sender 15 "A"; ("timestamp", VNum (int 17));
   ("account_linking", VObj 16 [("status", VStr "linked")])].

Definition page_of (messages : list (@props safe_integer)) : @webhook_body safe_integer :=
  {| object := VStr "page";
     entry := [ {| id := VStr "page-1"; messaging := messages |} ] |}.

Definition two_senders : @webhook_body safe_integer :=
  page_of [text_of_A; text_of_B; second_of_A; account_linking].

Definition user_body : @webhook_body safe_integer :=
  {| object := VStr "user";
     entry := [ {| id := VStr "page-1"; messaging := [text_of_A] |} ] |}.

Definition boom : @thrown safe_integer := Failure (VStr "processor failed").

(** The call [processMessage] makes for an event it hands on as it is. *)
Definition call_for (message : @props safe_integer) (senderId : val)
  : @processor_call safe_integer :=
  {| call_event := Incoming message;
     call_pageId := VStr "page-1";
     call_messageSender :=
       {| sender_options := config;
          sender_senderId := senderId;
          sender_message := message |} |}.

Definition item_of (message : @props safe_integer) : @item safe_integer :=
  {| message := message; pageId := VStr "page-1" |}.

(** [two_senders] with the first call of A and the call of B in flight. *)
Definition both_in_flight : @gateway_state safe_integer :=
  {| process :=
       [ chain (Pending (call_for text_of_A (VStr "A"))) (VStr "A")
               [item_of second_of_A];
         Pending (call_for text_of_B (VStr "B")) ];
     call := Awaiting [item_of account_linking];
     trace := [ (0, Called (call_for text_of_A (VStr "A")));
                (1, Called (call_for text_of_B (VStr "B"))) ] |}.

(** A platform that holds [menu] as the persistent menu and accepts every
    change, and one where every request fails. *)
Definition platform_with_menu (menu : val)
  : library -> @request_options safe_integer -> @outcome safe_integer val :=
  fun _ options =>
    if String.eqb (method options) "GET"
    then Returns (VObj 21 [("data",
                            VArr 22 [VObj 23 [("persistent_menu", menu)]])])
    else Returns (VObj 24 [("result", VStr "success")]).

Definition platform_down : library -> @request_options safe_integer -> @outcome safe_integer val :=
  fun _ _ => Throws boom.

(** A stand-in for [deepEqual], good for menus that are one string. *)
Definition same_menu (a b : val) : bool :=
  match a, b with
  | VStr x, VStr y => String.eqb x y
  | _, _ => false
  end.

Definition is_zero_integer (n : safe_integer) : bool :=
  Z.eqb (integer n) 0.

(** A message that names no sender. *)
Definition anonymous_text : @props safe_integer :=
  [("timestamp", VNum (int 18)); ("message", VObj 30 [("text", VStr "who")])].

(** Where a schedule leads from a state. *)
Definition after (schedule : list (@tick safe_integer)) (st : @gateway_state safe_integer)
  : @gateway_state safe_integer :=
  match run config schedule st with
  | Some st' => st'
  | None => st
  end.


End Example.

(** * Properties *)

Section Properties.

Context {num : Type} {NumOps : JsNumber num}.
Variable hmac_sha1_hex : string -> string -> string.
Variable _options : @options num.

(** ** Values *)

Lemma same_value_zero_refl (a : @value num) : same_value_zero a a = true.
Proof.
  destruct a as [ | | b | n | s | r o | r es]; simpl; auto.
  - apply Bool.eqb_reflx.
  - apply num_svz_refl.
  - apply String.eqb_refl.
  - apply Nat.eqb_refl.
  - apply Nat.eqb_refl.
Qed.

Lemma same_value_zero_sym (a b : @value num) :
  same_value_zero a b = same_value_zero b a.
Proof.
  destruct a, b; simpl; auto.
  - destruct b, b0; reflexivity.
  - apply num_svz_sym.
  - apply String.eqb_sym.
  - apply Nat.eqb_sym.
  - apply Nat.eqb_sym.
Qed.

Lemma same_value_zero_trans (a b c : @value num) :
  same_value_zero a b = true -> same_value_zero b c = true ->
  same_value_zero a c = true.
Proof.
  destruct a, b; simpl; try discriminate; destruct c; simpl;
    try discriminate; auto.
  - rewrite !Bool.eqb_true_iff. congruence.
  - apply num_svz_trans.
  - rewrite !String.eqb_eq. congruence.
  - rewrite !Nat.eqb_eq. congruence.
  - rewrite !Nat.eqb_eq. congruence.
Qed.

(** A key that misses one of two equal keys misses the other. *)
Lemma same_value_zero_false_l (a b c : @value num) :
  same_value_zero a b = true -> same_value_zero a c = false ->
  same_value_zero b c = false.
Proof.
  intros Hab Hac. destruct (same_value_zero b c) eqn:Hbc; auto.
  rewrite (same_value_zero_trans _ _ _ Hab Hbc) in Hac. discriminate.
Qed.

Lemma strict_eq_truthy (a b : @value num) :
  strict_eq a b = true -> truthy a = truthy b.
Proof.
  destruct a, b; simpl; try discriminate; auto.
  - rewrite Bool.eqb_true_iff. auto.
  - apply num_strict_eq_truthy.
  - rewrite String.eqb_eq. congruence.
Qed.

Lemma truthy_defined (v : @value num) : truthy v = true -> defined v = true.
Proof. destruct v; simpl; auto. Qed.

(** ** Webhook verification *)

(** C6: [verifyWebhook] throws an Unauthorized error carrying code 401 when
    the configured token is unset, when the query has no verify token, or
    when the token of the query is not the configured one; on a query whose
    token is the configured one it returns the query's challenge as it is. *)
Theorem verifyWebhook_challenge (queryString : @props num) :
  let token := lookup "hub.verify_token" queryString in
  (truthy (botToken _options) = false \/ truthy token = false \/
   strict_eq token (botToken _options) = false ->
   exists reason,
     verifyWebhook _options queryString
     = Throws (ErrorWith ("Unauthorized: " ++ reason) 401 401))
  /\ (truthy (botToken _options) = true ->
      strict_eq token (botToken _options) = true ->
      verifyWebhook _options queryString
      = Returns (lookup "hub.challenge" queryString)).
Proof.
  intros token. unfold verifyWebhook. fold token. split.
  - intros H.
    destruct (truthy (botToken _options)) eqn:Hbot; simpl.
    2: eexists; reflexivity.
    destruct (truthy token) eqn:Htok; simpl.
    2: eexists; reflexivity.
    destruct (strict_eq token (botToken _options)) eqn:Heq.
    2: eexists; reflexivity.
    destruct H as [H | [H | H]]; discriminate.
  - intros Hbot Heq.
    rewrite Hbot, (strict_eq_truthy _ _ Heq), Hbot, Heq. reflexivity.
Qed.

Lemma signature_header_truthy (headers : @props num) (sig : string) :
  signature_header headers = VStr sig -> signatureHash sig <> None ->
  truthy (signature_header headers) = true.
Proof.
  intros -> Hhash.
  destruct sig; simpl; [exfalso; apply Hhash; reflexivity | reflexivity].
Qed.

(** C4: with no [appSecret], [verifyRequest] succeeds whatever the headers.
    With a secret, it throws Unauthorized when there is no signature header;
    it succeeds exactly when the part of the signature after the first [=]
    is the hex HMAC-SHA1 of the body under the secret; and so a body with
    another digest turns a success into Unauthorized. *)
Theorem verifyRequest_signature (body : string) (headers : @props num) :
  (truthy (appSecret _options) = false ->
   verifyRequest hmac_sha1_hex _options body headers = Returns tt)
  /\ (forall secret,
        appSecret _options = VStr secret -> secret <> "" ->
        (truthy (signature_header headers) = false ->
         verifyRequest hmac_sha1_hex _options body headers
         = Throws (_getUnauthorizedError "Missing X-Hub-Signature"))
        /\ (verifyRequest hmac_sha1_hex _options body headers = Returns tt <->
            exists sig,
              signature_header headers = VStr sig /\
              signatureHash sig = Some (hmac_sha1_hex secret body))
        /\ (forall body',
              verifyRequest hmac_sha1_hex _options body headers = Returns tt ->
              hmac_sha1_hex secret body' <> hmac_sha1_hex secret body ->
              verifyRequest hmac_sha1_hex _options body' headers
              = Throws (_getUnauthorizedError
                          "Couldn't validate the request signature."))).
Proof.
  split.
  - intros Hunset. unfold verifyRequest. rewrite Hunset. reflexivity.
  - intros secret Hsecret Hnonempty.
    assert (Hset : truthy (appSecret _options) = true).
    { rewrite Hsecret. simpl. destruct secret; [congruence | reflexivity]. }
    assert (Hiff : forall b,
      verifyRequest hmac_sha1_hex _options b headers = Returns tt <->
      exists sig, signature_header headers = VStr sig /\
                  signatureHash sig = Some (hmac_sha1_hex secret b)).
    { intros b. unfold verifyRequest. rewrite Hset, Hsecret. simpl. split.
      - destruct (truthy (signature_header headers)); simpl; [|discriminate].
        destruct (signature_header headers); try discriminate.
        destruct (signatureHash s) as [hash|] eqn:Hhash; [|discriminate].
        destruct (String.eqb hash (hmac_sha1_hex secret b)) eqn:Heq;
          [|discriminate].
        apply String.eqb_eq in Heq. subst hash. intros _. eauto.
      - intros (sig & Hsig & Hhash).
        rewrite (signature_header_truthy headers sig Hsig) by congruence.
        rewrite Hsig, Hhash, String.eqb_refl. reflexivity. }
    split; [|split].
    + intros Hmissing. unfold verifyRequest.
      rewrite Hset, Hmissing. reflexivity.
    + apply Hiff.
    + intros body' Hok Hdiff.
      apply Hiff in Hok. destruct Hok as (sig & Hsig & Hhash).
      unfold verifyRequest. rewrite Hset, Hsecret.
      rewrite (signature_header_truthy headers sig Hsig) by congruence.
      rewrite Hsig, Hhash. simpl.
      destruct (String.eqb _ _) eqn:Heq; [|reflexivity].
      apply String.eqb_eq in Heq. congruence.
Qed.

(** C9, as the code has it: the signature is read under two spellings of
    the header's name, [x-hub-signature] first and [X-Hub-Signature] when
    that one is missing or empty; a header under any other name, other
    casings included, is not looked at; and [verifyRequest] depends on the
    headers through this value alone. *)
Theorem signature_header_spellings (headers : @props num) :
  signature_header headers
  = (if truthy (lookup "x-hub-signature" headers)
     then lookup "x-hub-signature" headers
     else lookup "X-Hub-Signature" headers)
  /\ (forall k v,
        k <> "x-hub-signature" -> k <> "X-Hub-Signature" ->
        signature_header ((k, v) :: headers) = signature_header headers)
  /\ (forall body headers',
        signature_header headers' = signature_header headers ->
        verifyRequest hmac_sha1_hex _options body headers'
        = verifyRequest hmac_sha1_hex _options body headers).
Proof.
  split; [reflexivity | split].
  - intros k v Hlower Hmixed. unfold signature_header. cbn [lookup].
    apply String.eqb_neq in Hlower, Hmixed.
    rewrite String.eqb_sym in Hlower. rewrite String.eqb_sym in Hmixed.
    rewrite Hlower, Hmixed. reflexivity.
  - intros body headers' Hsame. unfold verifyRequest. rewrite Hsame.
    reflexivity.
Qed.

(** ** The [Map] of queues *)

Lemma map_has_false_in (m : @js_map num) k k' q :
  map_has m k = false -> In (k', q) m -> same_value_zero k' k = false.
Proof.
  induction m as [|[k0 q0] rest IH]; simpl; [tauto|].
  intros Hhas [Heq | Hin].
  - inversion Heq; subst. apply Bool.orb_false_iff in Hhas. tauto.
  - apply Bool.orb_false_iff in Hhas. tauto.
Qed.

Lemma map_has_svz (m : @js_map num) k1 k2 :
  same_value_zero k1 k2 = true -> map_has m k1 = map_has m k2.
Proof.
  intros Hsame. induction m as [|[k0 q0] rest IH]; simpl; [reflexivity|].
  rewrite IH. f_equal.
  destruct (same_value_zero k0 k1) eqn:H1.
  - symmetry. eapply same_value_zero_trans; eauto.
  - symmetry. destruct (same_value_zero k0 k2) eqn:H2; auto.
    rewrite same_value_zero_sym in Hsame.
    rewrite (same_value_zero_trans _ _ _ H2 Hsame) in H1. discriminate.
Qed.

Lemma map_has_app (m m' : @js_map num) k :
  map_has (m ++ m') k = (map_has m k || map_has m' k)%bool.
Proof. apply existsb_app. Qed.

(** [get(k).push(x)] on a key that is there reaches its queue. *)
Lemma map_push_present (m : @js_map num) k x :
  map_has m k = true -> map_push m k x = push_first m k x.
Proof.
  unfold map_push. induction m as [|[k0 q0] rest IH]; simpl; [discriminate|].
  destruct (same_value_zero k0 k) eqn:Hk; simpl.
  - intros _. rewrite ?Hk. reflexivity.
  - intros Hhas. specialize (IH Hhas).
    destruct (map_get rest k); simpl; rewrite ?Hk; congruence.
Qed.

(** [set(k, [])] on a fresh key followed by [get(k).push(x)] adds the queue
    [[x]] at the end: the push never meets a missing key. *)
Lemma map_push_after_ensure (m : @js_map num) k x :
  map_has m k = false ->
  map_push (map_set m k []) k x = m ++ [(k, [x])].
Proof.
  unfold map_push, map_has.
  induction m as [|[k0 q0] rest IH]; cbn [map_set map_get existsb fst app].
  - intros _. rewrite same_value_zero_refl. cbn [map_set app].
    rewrite ?same_value_zero_refl. reflexivity.
  - intros Hhas. apply Bool.orb_false_iff in Hhas. destruct Hhas as [Hk Hrest].
    specialize (IH Hrest). rewrite Hk. cbn [map_get]. rewrite Hk.
    destruct (map_get (map_set rest k []) k); cbn [map_set].
    + rewrite Hk. congruence.
    + congruence.
Qed.

Lemma group_item_cases (m : @js_map num) o x :
  group_item (m, o) x
  = if processable (message x) then
      (if map_has m (senderIdOf (message x))
       then push_first m (senderIdOf (message x)) x
       else m ++ [(senderIdOf (message x), [x])],
       o)
    else (m, o ++ [x]).
Proof.
  destruct x as [msg page]. unfold group_item, group_message. simpl.
  destruct (processable msg); [|reflexivity].
  destruct (map_has m (senderIdOf msg)) eqn:Hhas; simpl.
  - rewrite map_push_present by assumption. reflexivity.
  - rewrite map_push_after_ensure by assumption. reflexivity.
Qed.

Lemma map_has_push_first (m : @js_map num) k x k' :
  map_has (push_first m k x) k' = map_has m k'.
Proof.
  induction m as [|[k0 q0] rest IH]; simpl; [reflexivity|].
  destruct (same_value_zero k0 k); simpl; congruence.
Qed.

Lemma keys_distinct_push_first (m : @js_map num) k x :
  keys_distinct m -> keys_distinct (push_first m k x).
Proof.
  induction m as [|[k0 q0] rest IH]; simpl; [tauto|].
  intros [Hfresh Hrest].
  destruct (same_value_zero k0 k); simpl; [tauto|].
  rewrite map_has_push_first. tauto.
Qed.

Lemma keys_distinct_snoc (m : @js_map num) k q :
  keys_distinct m -> map_has m k = false -> keys_distinct (m ++ [(k, q)]).
Proof.
  induction m as [|[k0 q0] rest IH]; simpl; [tauto|].
  intros [Hfresh Hrest] Hhas.
  apply Bool.orb_false_iff in Hhas. destruct Hhas as [Hk Hhas].
  split; [|auto].
  rewrite map_has_app, Hfresh. simpl.
  rewrite same_value_zero_sym, Hk. reflexivity.
Qed.

(** With distinct keys, the push touches the one queue whose key is [k]. *)
Lemma push_first_in (m : @js_map num) k x k' q' :
  keys_distinct m -> In (k', q') (push_first m k x) ->
  exists q, In (k', q) m /\
            q' = if same_value_zero k' k then q ++ [x] else q.
Proof.
  induction m as [|[k0 q0] rest IH]; simpl; [tauto|].
  intros [Hfresh Hrest].
  destruct (same_value_zero k0 k) eqn:Hk; simpl.
  - intros [Heq | Hin].
    + inversion Heq; subst. exists q0. rewrite Hk. auto.
    + exists q'. split; [auto|].
      pose proof (map_has_false_in _ _ _ _ Hfresh Hin) as Hother.
      destruct (same_value_zero k' k) eqn:Hk'; [exfalso | reflexivity].
      rewrite same_value_zero_sym in Hk.
      rewrite (same_value_zero_trans _ _ _ Hk' Hk) in Hother. discriminate.
  - intros [Heq | Hin].
    + inversion Heq; subst. exists q'. rewrite Hk. auto.
    + destruct (IH Hrest Hin) as (q & Hq & Hq'). eauto.
Qed.
Lemma push_first_perm (m : @js_map num) k x :
  map_has m k = true ->
  Permutation (List.concat (map snd (push_first m k x)))
              (List.concat (map snd m) ++ [x]).
Proof.
  induction m as [|[k0 q0] rest IH]; simpl; [discriminate|].
  destruct (same_value_zero k0 k); simpl.
  - intros _. rewrite <- !app_assoc. apply Permutation_app_head.
    apply Permutation_app_comm.
  - intros Hhas. rewrite <- app_assoc. apply Permutation_app_head. auto.
Qed.

Lemma filter_snoc {A : Type} (f : A -> bool) (l : list A) (x : A) :
  filter f (l ++ [x]) = filter f l ++ (if f x then [x] else []).
Proof. rewrite filter_app. reflexivity. Qed.

Lemma filter_none {A : Type} (f : A -> bool) (l : list A) :
  (forall x, In x l -> f x = false) -> filter f l = [].
Proof.
  induction l as [|y l IH]; simpl; intros Hnone; [reflexivity|].
  rewrite (Hnone y) by auto. auto.
Qed.

Lemma grouped_nil : grouped (num := num) [] [] [].
Proof.
  constructor; simpl; auto; intros ? ? [].
Qed.

(** One more event, one more step of the loops. *)
Lemma grouped_step (l : list (@item num)) m o x :
  grouped l m o ->
  grouped (l ++ [x]) (fst (group_item (m, o) x)) (snd (group_item (m, o) x)).
Proof.
  intros [Hothers Hqueues Hkeys Hcovers Hperm].
  rewrite group_item_cases.
  destruct (processable (message x)) eqn:Hproc; simpl.
  - (* a processable event *)
    set (sid := senderIdOf (message x)) in *.
    assert (Hpass : passes_through x = false)
      by (unfold passes_through; rewrite Hproc; reflexivity).
    assert (Hin_queue : forall k, in_queue k x = same_value_zero k sid)
      by (intros k; unfold in_queue; rewrite Hproc; reflexivity).
    destruct (map_has m sid) eqn:Hhas; constructor.
    + rewrite filter_snoc, Hpass, app_nil_r. assumption.
    + intros k q' Hin.
      destruct (push_first_in _ _ _ _ _ Hkeys Hin) as (q & Hq & Hq').
      destruct (Hqueues _ _ Hq) as [Hne Hfilter].
      rewrite filter_snoc, Hin_queue, <- Hfilter, Hq'.
      destruct (same_value_zero k sid).
      * split; [destruct q; discriminate | reflexivity].
      * rewrite app_nil_r. auto.
    + apply keys_distinct_push_first. assumption.
    + intros y Hy Hprocy. rewrite map_has_push_first.
      apply in_app_or in Hy. destruct Hy as [Hy | [<- | []]]; auto.
    + eapply Permutation_trans.
      { apply Permutation_app_tail. apply push_first_perm. assumption. }
      rewrite <- app_assoc.
      eapply Permutation_trans.
      { apply Permutation_app_head. apply Permutation_app_comm. }
      rewrite app_assoc. apply Permutation_app_tail. assumption.
    + rewrite filter_snoc, Hpass, app_nil_r. assumption.
    + intros k q' Hin. apply in_app_or in Hin.
      rewrite filter_snoc, Hin_queue.
      destruct Hin as [Hin | [Heq | []]].
      * rewrite (map_has_false_in _ _ _ _ Hhas Hin), app_nil_r. auto.
      * inversion Heq; subst k q'. rewrite same_value_zero_refl.
        split; [discriminate|].
        replace (filter (in_queue sid) l) with (@nil (@item num));
          [reflexivity|].
        symmetry. apply filter_none. intros y Hy.
        unfold in_queue.
        destruct (processable (message y)) eqn:Hprocy; [|reflexivity].
        destruct (same_value_zero sid (senderIdOf (message y))) eqn:Hsame;
          [|reflexivity].
        rewrite (map_has_svz m _ _ Hsame) in Hhas.
        rewrite (Hcovers y Hy Hprocy) in Hhas. discriminate.
    + apply keys_distinct_snoc; assumption.
    + intros y Hy Hprocy. rewrite map_has_app.
      apply in_app_or in Hy. destruct Hy as [Hy | [<- | []]].
      * rewrite (Hcovers y Hy Hprocy). reflexivity.
      * simpl. fold sid. rewrite same_value_zero_refl.
        apply Bool.orb_true_iff. auto.
    + rewrite map_app, concat_app. simpl. rewrite <- app_assoc.
      eapply Permutation_trans.
      { apply Permutation_app_head. apply Permutation_app_comm. }
      rewrite app_assoc. apply Permutation_app_tail. assumption.
  - (* an event passed through *)
    assert (Hpass : passes_through x = true)
      by (unfold passes_through; rewrite Hproc; reflexivity).
    assert (Hin_queue : forall k, in_queue k x = false)
      by (intros k; unfold in_queue; rewrite Hproc; reflexivity).
    constructor.
    + rewrite filter_snoc, Hpass. congruence.
    + intros k q Hin. rewrite filter_snoc, Hin_queue, app_nil_r. auto.
    + assumption.
    + intros y Hy Hprocy.
      apply in_app_or in Hy. destruct Hy as [Hy | [<- | []]]; auto.
      congruence.
    + rewrite app_assoc. apply Permutation_app_tail. assumption.
Qed.

Lemma grouped_fold (l' l : list (@item num)) m o :
  grouped l m o ->
  grouped (l ++ l') (fst (fold_left group_item l' (m, o)))
                    (snd (fold_left group_item l' (m, o))).
Proof.
  revert l m o.
  induction l' as [|x l' IH]; intros l m o Hgrouped; cbn [fold_left fst snd].
  - rewrite app_nil_r. assumption.
  - pose proof (grouped_step _ _ _ x Hgrouped) as Hstep.
    destruct (group_item (m, o) x) as [m1 o1].
    replace (l ++ x :: l') with ((l ++ [x]) ++ l')
      by (rewrite <- app_assoc; reflexivity).
    apply IH. assumption.
Qed.

Lemma fold_left_flat_map {A B C : Type} (f : A -> C -> A) (g : B -> list C)
  (l : list B) (a : A) :
  fold_left f (flat_map g l) a
  = fold_left (fun acc b => fold_left f (g b) acc) l a.
Proof.
  revert a. induction l as [|b l IH]; intros a; simpl; [reflexivity|].
  rewrite fold_left_app. apply IH.
Qed.

Lemma fold_left_map {A B C : Type} (f : A -> C -> A) (h : B -> C)
  (l : list B) (a : A) :
  fold_left f (map h l) a = fold_left (fun acc b => f acc (h b)) l a.
Proof.
  revert a. induction l as [|b l IH]; intros a; simpl; auto.
Qed.

(** The nested loops are one pass over [all_items]. *)
Lemma grouping_all_items (body : @webhook_body num) :
  grouping body = fold_left group_item (all_items body) ([], []).
Proof.
  unfold grouping, all_items. rewrite fold_left_flat_map.
  generalize (@nil (@value num * list (@item num)), @nil (@item num)).
  induction (entry body) as [|e es IH]; intros acc; simpl; [reflexivity|].
  rewrite fold_left_map. apply IH.
Qed.

Lemma grouping_grouped (body : @webhook_body num) :
  grouped (all_items body) (fst (grouping body)) (snd (grouping body)).
Proof.
  rewrite grouping_all_items.
  apply (grouped_fold (all_items body) [] [] [] grouped_nil).
Qed.

Lemma map_has_true_in (m : @js_map num) k :
  map_has m k = true ->
  exists k' q, In (k', q) m /\ same_value_zero k' k = true.
Proof.
  unfold map_has. rewrite existsb_exists.
  intros ([k' q] & Hin & Hsame). eauto.
Qed.

(** ** Promise chains *)

Lemma chain_snoc (base : @promise num) senderId events y :
  chain base senderId (events ++ [y])
  = Then (chain base senderId events) senderId y.
Proof. unfold chain. rewrite fold_left_app. reflexivity. Qed.

Lemma chain_unsettled (p : @promise num) senderId events :
  is_settled p = false -> is_settled (chain p senderId events) = false.
Proof.
  intros Hp. destruct events as [|y events _] using rev_ind; [assumption|].
  rewrite chain_snoc. reflexivity.
Qed.

Lemma step_then a (q : @promise num) senderId y :
  is_settled q = false ->
  step_promise _options a (Then q senderId y)
  = match step_promise _options a q with
    | Some (q', obs) => Some (Then q' senderId y, obs)
    | None => None
    end.
Proof. destruct q; intros Hq; try discriminate; reflexivity. Qed.

(** A step of a chain is a step of the promise at its bottom, as long as
    that one is not settled: the callbacks above it wait. *)
Lemma step_chain a (p : @promise num) senderId events :
  is_settled p = false ->
  step_promise _options a (chain p senderId events)
  = match step_promise _options a p with
    | Some (p', obs) => Some (chain p' senderId events, obs)
    | None => None
    end.
Proof.
  intros Hp. induction events as [|y events IH] using rev_ind.
  - simpl. destruct (step_promise _options a p) as [[p' obs]|]; reflexivity.
  - rewrite chain_snoc, step_then, IH by (apply chain_unsettled; assumption).
    destruct (step_promise _options a p) as [[p' obs]|];
      rewrite ?chain_snoc; reflexivity.
Qed.

Lemma step_chain_fulfilled a v senderId x (rest : list (@item num)) :
  step_promise _options a (chain (Fulfilled v) senderId (x :: rest))
  = match a with
    | RunJob =>
        match processMessage _options (message x) senderId (pageId x) with
        | Resolved r => Some (chain (Fulfilled (Some r)) senderId rest, [])
        | Dispatched c => Some (chain (Pending c) senderId rest, [Called c])
        | Threw e => Some (chain (Rejected e) senderId rest, [])
        end
    | Settles _ => None
    end.
Proof.
  change (chain (Fulfilled v) senderId (x :: rest))
    with (chain (Then (Fulfilled v) senderId x) senderId rest).
  rewrite step_chain by reflexivity. cbn [step_promise].
  destruct a; [|reflexivity].
  destruct (processMessage _options (message x) senderId (pageId x));
    reflexivity.
Qed.

Lemma step_chain_rejected a e senderId x (rest : list (@item num)) :
  step_promise _options a (chain (Rejected e) senderId (x :: rest))
  = match a with
    | RunJob => Some (chain (Rejected e) senderId rest, [])
    | Settles _ => None
    end.
Proof.
  change (chain (Rejected e) senderId (x :: rest))
    with (chain (Then (Rejected e) senderId x) senderId rest).
  rewrite step_chain by reflexivity. cbn [step_promise].
  destruct a; reflexivity.
Qed.

Lemma step_chain_pending a c senderId (rest : list (@item num)) :
  step_promise _options a (chain (Pending c) senderId rest)
  = match a with
    | Settles (Returns r) =>
        Some (chain (Fulfilled (Some r)) senderId rest,
              [Settled c (Returns r)])
    | Settles (Throws e) =>
        Some (chain (Rejected e) senderId rest, [Settled c (Throws e)])
    | RunJob => None
    end.
Proof.
  rewrite step_chain by reflexivity. cbn [step_promise].
  destruct a as [|[r|e]]; reflexivity.
Qed.

(** [processMessage] throws exactly on the events that do not print, and
    what it throws then is a [TypeError]. *)
Lemma processMessage_throws msg (senderId pageId : @value num) e :
  processMessage _options msg senderId pageId = Threw e ->
  printable _options msg = false /\ e = TypeError.
Proof.
  unfold processMessage, event_of, printable.
  destruct (truthy (lookup "take_thread_control" msg)).
  - destruct (to_string _) as [previous_owner|];
      [destruct (to_string (appId _options)) as [own|]|].
    + destruct (_ && _); discriminate.
    + intros Heq. inversion Heq. auto.
    + intros Heq. inversion Heq. auto.
  - repeat match goal with
           | |- context [if ?b then _ else _] => destruct b
           end; discriminate.
Qed.

Lemma processMessage_unprintable msg (senderId pageId : @value num) :
  printable _options msg = false ->
  processMessage _options msg senderId pageId = Threw TypeError.
Proof.
  unfold processMessage, event_of, printable.
  destruct (truthy (lookup "take_thread_control" msg)); [|discriminate].
  destruct (to_string _) as [previous_owner|];
    [destruct (to_string (appId _options)) as [own|]|];
    try discriminate; reflexivity.
Qed.

Lemma calls_of_app senderId (l l' : list (@item num)) :
  forallb (fun x => printable _options (message x)) l = true ->
  calls_of _options senderId (l ++ l')
  = calls_of _options senderId l ++ calls_of _options senderId l'.
Proof.
  induction l as [|x l IH]; simpl; [reflexivity|].
  intros Hall. apply Bool.andb_true_iff in Hall. destruct Hall as [Hx Hall].
  destruct (processMessage _options (message x) senderId (pageId x))
    as [r|c|e] eqn:Hpm.
  - auto.
  - rewrite IH by assumption. reflexivity.
  - apply processMessage_throws in Hpm. destruct Hpm as [Hpm _]. congruence.
Qed.

(** The calls of a queue end with the first event that does not print. *)
Lemma calls_of_unprintable senderId (l l' : list (@item num)) x :
  forallb (fun y => printable _options (message y)) l = true ->
  printable _options (message x) = false ->
  calls_of _options senderId (l ++ x :: l') = calls_of _options senderId l.
Proof.
  intros Hall Hx. rewrite calls_of_app by assumption. simpl.
  rewrite processMessage_unprintable by assumption. apply app_nil_r.
Qed.

Lemma in_calls_of senderId (l : list (@item num)) c :
  In c (calls_of _options senderId l) ->
  exists x, In x l /\
            processMessage _options (message x) senderId (pageId x)
            = Dispatched c.
Proof.
  induction l as [|x l IH]; simpl; [tauto|].
  destruct (processMessage _options (message x) senderId (pageId x))
    as [r|c'|e] eqn:Hpm.
  - intros Hin. destruct (IH Hin) as (y & Hy & Hc). eauto.
  - intros [<- | Hin]; [eauto|].
    destruct (IH Hin) as (y & Hy & Hc). eauto.
  - intros [].
Qed.

Lemma forallb_snoc {A : Type} (f : A -> bool) (l : list A) (x : A) :
  forallb f (l ++ [x]) = (forallb f l && f x)%bool.
Proof. rewrite forallb_app. simpl. rewrite Bool.andb_true_r. reflexivity. Qed.

Lemma called_app (tr tr' : list (@observation num)) :
  called (tr ++ tr') = called tr ++ called tr'.
Proof.
  induction tr as [|[c|c r] tr IH]; simpl; congruence.
Qed.

Lemma snoc_assoc {A : Type} (l l' : list A) (x : A) :
  l ++ x :: l' = (l ++ [x]) ++ l'.
Proof. rewrite <- app_assoc. reflexivity. Qed.

(** A step of a queue's promise keeps the queue's invariant. *)
Lemma queue_invariant_step senderId events a (p p' : @promise num) tr obs :
  queue_invariant _options senderId events p tr ->
  step_promise _options a p = Some (p', obs) ->
  queue_invariant _options senderId events p' (tr ++ obs).
Proof.
  intros (done & rest & base & Hevents & Hp & Hbase) Hstep. subst p.
  destruct base as [v|e|c|]; [| | |contradiction].
  - (* between two events *)
    destruct rest as [|x rest]; [discriminate|].
    rewrite step_chain_fulfilled in Hstep.
    destruct a; [|discriminate]. destruct Hbase as (Hseq & Hcalled & Hprints).
    exists (done ++ [x]), rest.
    destruct (processMessage _options (message x) senderId (pageId x))
      as [r|c|e] eqn:Hpm; inversion Hstep; subst p' obs.
    + assert (Hx : printable _options (message x) = true).
      { destruct (printable _options (message x)) eqn:Hx; [reflexivity|].
        rewrite (processMessage_unprintable _ senderId (pageId x) Hx) in Hpm.
        discriminate. }
      exists (Fulfilled (Some r)). rewrite app_nil_r, calls_of_app by assumption.
      split; [rewrite Hevents; apply snoc_assoc|]. split; [reflexivity|].
      split; [assumption|]. split.
      * simpl. rewrite Hpm, Hcalled, app_nil_r. reflexivity.
      * rewrite forallb_snoc, Hprints, Hx. reflexivity.
    + assert (Hx : printable _options (message x) = true).
      { destruct (printable _options (message x)) eqn:Hx; [reflexivity|].
        rewrite (processMessage_unprintable _ senderId (pageId x) Hx) in Hpm.
        discriminate. }
      exists (Pending c). rewrite called_app, calls_of_app by assumption.
      split; [rewrite Hevents; apply snoc_assoc|]. split; [reflexivity|].
      split; [constructor; assumption|]. split.
      * simpl. rewrite Hpm, Hcalled. reflexivity.
      * rewrite forallb_snoc, Hprints, Hx. reflexivity.
    + destruct (processMessage_throws _ _ _ _ Hpm) as [Hx ->].
      exists (Rejected TypeError). rewrite app_nil_r.
      split; [rewrite Hevents; apply snoc_assoc|]. split; [reflexivity|].
      split; [assumption|]. split.
      * exists []. rewrite Hevents, calls_of_unprintable by assumption.
        rewrite app_nil_r. auto.
      * right. exists x. split; [|auto].
        rewrite Hevents. apply in_or_app. right. left. reflexivity.
  - (* a rejection on its way up *)
    destruct rest as [|x rest]; [discriminate|].
    rewrite step_chain_rejected in Hstep.
    destruct a; [|discriminate]. inversion Hstep; subst p' obs.
    exists (done ++ [x]), rest, (Rejected e). rewrite app_nil_r.
    split; [rewrite Hevents; apply snoc_assoc|]. split; [reflexivity|].
    assumption.
  - (* a call in flight *)
    rewrite step_chain_pending in Hstep.
    destruct Hbase as (Hseq & Hcalled & Hprints).
    destruct a as [|[r|e]]; [discriminate | |]; inversion Hstep; subst p' obs;
      exists done, rest.
    + exists (Fulfilled (Some r)). rewrite called_app. simpl.
      rewrite app_nil_r.
      repeat split; auto. constructor. assumption.
    + exists (Rejected e). rewrite called_app. simpl. rewrite app_nil_r.
      split; [assumption|]. split; [reflexivity|].
      split; [constructor; assumption|]. split.
      * exists (calls_of _options senderId rest).
        rewrite Hevents, calls_of_app, Hcalled by assumption. reflexivity.
      * left. exists c. apply in_or_app. right. left. reflexivity.
Qed.

(** ** The event loop *)

Lemma nth_error_replace_nth_same {A : Type} (l : list A) i x y :
  nth_error l i = Some y -> nth_error (replace_nth i x l) i = Some x.
Proof.
  revert i. induction l as [|z l IH]; intros [|i]; simpl;
    try discriminate; auto.
Qed.

Lemma nth_error_replace_nth_other {A : Type} (l : list A) i j x :
  j <> i -> nth_error (replace_nth i x l) j = nth_error l j.
Proof.
  revert i j. induction l as [|z l IH]; intros [|i] [|j] Hneq; simpl;
    try reflexivity; try congruence.
  apply IH. congruence.
Qed.

Lemma task_trace_app j (tr tr' : list (nat * @observation num)) :
  task_trace j (tr ++ tr') = task_trace j tr ++ task_trace j tr'.
Proof. unfold task_trace. rewrite filter_app, map_app. reflexivity. Qed.

Lemma task_trace_same i (obs : list (@observation num)) :
  task_trace i (map (pair i) obs) = obs.
Proof.
  unfold task_trace. induction obs as [|o obs IH]; simpl; [reflexivity|].
  rewrite Nat.eqb_refl. simpl. congruence.
Qed.

Lemma task_trace_other i j (obs : list (@observation num)) :
  j <> i -> task_trace j (map (pair i) obs) = [].
Proof.
  intros Hneq. unfold task_trace.
  induction obs as [|o obs IH]; simpl; [reflexivity|].
  destruct (Nat.eqb_spec i j); [congruence | assumption].
Qed.

(** [advance], spelled out. *)
Lemma advance_inv i a (st st' : @gateway_state num) :
  advance _options i a st = Some st' ->
  exists p p' obs,
    nth_error (process st) i = Some p /\
    step_promise _options a p = Some (p', obs) /\
    st' = {| process := replace_nth i p' (process st);
             call := call st;
             trace := trace st ++ map (pair i) obs |}.
Proof.
  unfold advance. destruct (nth_error (process st) i) as [p|]; [|discriminate].
  destruct (step_promise _options a p) as [[p' obs]|] eqn:Hstep;
    [|discriminate].
  intros Heq. inversion Heq. eauto 6.
Qed.

Lemma length_replace_nth {A : Type} (l : list A) i x :
  List.length (replace_nth i x l) = List.length l.
Proof.
  revert i. induction l as [|z l IH]; intros [|i]; simpl; auto.
Qed.

Lemma advance_keeps_invariant queues i a (st st' : @gateway_state num) :
  gateway_invariant _options queues st ->
  advance _options i a st = Some st' ->
  gateway_invariant _options queues st'.
Proof.
  intros (Hlength & Hbound & Hqueues) Hadv.
  destruct (advance_inv _ _ _ _ Hadv) as (p & p' & obs & Hp & Hstep & ->).
  assert (Hi : i < List.length queues).
  { rewrite <- Hlength. apply nth_error_Some. congruence. }
  split; [|split]; simpl.
  - rewrite length_replace_nth. assumption.
  - intros j o Hin. apply in_app_or in Hin. destruct Hin as [Hin | Hin]; eauto.
    apply in_map_iff in Hin. destruct Hin as (o' & Heq & _).
    inversion Heq. subst. assumption.
  - intros j senderId events Hq.
    destruct (Hqueues j senderId events Hq) as (q & Hnth & Hinv).
    rewrite task_trace_app.
    destruct (Nat.eq_dec j i) as [-> | Hneq].
    + exists p'. rewrite (nth_error_replace_nth_same _ _ _ _ Hp).
      split; [reflexivity|]. rewrite task_trace_same.
      rewrite Hp in Hnth. inversion Hnth; subst q.
      eapply queue_invariant_step; eauto.
    + exists q. rewrite nth_error_replace_nth_other by assumption.
      split; [assumption|].
      rewrite task_trace_other, app_nil_r by assumption. assumption.
Qed.

Lemma step_keeps_invariant queues t (st st' : @gateway_state num) :
  gateway_invariant _options queues st ->
  step _options t st = Some st' ->
  gateway_invariant _options queues st'.
Proof.
  intros Hinv. destruct t as [i | i r | | i]; simpl.
  - apply advance_keeps_invariant. assumption.
  - apply advance_keeps_invariant. assumption.
  - destruct (call st); [|discriminate].
    destruct (forallb is_fulfilled (process st)); [|discriminate].
    intros Heq. inversion Heq. assumption.
  - destruct (call st); [|discriminate].
    destruct (nth_error (process st) i) as [[ | e | | ]|]; try discriminate.
    intros Heq. inversion Heq. assumption.
Qed.

Lemma run_keeps_invariant queues schedule (st st' : @gateway_state num) :
  gateway_invariant _options queues st ->
  run _options schedule st = Some st' ->
  gateway_invariant _options queues st'.
Proof.
  revert st. induction schedule as [|t schedule IH]; intros st Hinv; simpl.
  - intros Heq. inversion Heq. subst. assumption.
  - destruct (step _options t st) as [st1|] eqn:Hstep; [|discriminate].
    apply IH. eapply step_keeps_invariant; eauto.
Qed.

Lemma processEvent_page (body : @webhook_body num) :
  strict_eq (object body) (VStr "page") = true ->
  processEvent body
  = {| process :=
         map (fun '(senderId, events) => _processEventsOfSender senderId events)
             (entries (fst (grouping body)));
       call := Awaiting (snd (grouping body));
       trace := [] |}.
Proof.
  intros Hpage. unfold processEvent. rewrite Hpage. simpl.
  destruct (grouping body). reflexivity.
Qed.

(** The invariant holds when [processEvent] suspends. *)
Lemma processEvent_invariant (body : @webhook_body num) :
  strict_eq (object body) (VStr "page") = true ->
  gateway_invariant _options (entries (fst (grouping body)))
                    (processEvent body).
Proof.
  intros Hpage. rewrite processEvent_page by assumption.
  split; [|split]; simpl.
  - apply length_map.
  - intros i o [].
  - intros i senderId events Hq.
    exists (_processEventsOfSender senderId events).
    rewrite nth_error_map, Hq. split; [reflexivity|].
    exists [], events, (Fulfilled None).
    repeat split. constructor.
Qed.

(** Every reachable state of a call on a page envelope has the invariant. *)
Lemma reachable_invariant (body : @webhook_body num) schedule st :
  strict_eq (object body) (VStr "page") = true ->
  run _options schedule (processEvent body) = Some st ->
  gateway_invariant _options (entries (fst (grouping body))) st.
Proof.
  intros Hpage. apply run_keeps_invariant.
  apply processEvent_invariant. assumption.
Qed.

Lemma run_app schedule schedule' (st : @gateway_state num) :
  run _options (schedule ++ schedule') st
  = match run _options schedule st with
    | Some st' => run _options schedule' st'
    | None => None
    end.
Proof.
  revert st. induction schedule as [|t schedule IH]; intros st; simpl;
    [reflexivity|].
  destruct (step _options t st); auto.
Qed.

(** A step of one promise leaves the others alone. *)
Lemma advance_other i j a (st st' : @gateway_state num) :
  advance _options i a st = Some st' -> j <> i ->
  nth_error (process st') j = nth_error (process st) j /\
  task_trace j (trace st') = task_trace j (trace st).
Proof.
  intros Hadv Hneq.
  destruct (advance_inv _ _ _ _ Hadv) as (p & p' & obs & Hp & Hstep & ->).
  simpl. split.
  - apply nth_error_replace_nth_other. assumption.
  - rewrite task_trace_app, task_trace_other, app_nil_r by assumption.
    reflexivity.
Qed.

(** Whether a promise can step depends on that promise alone. *)
Lemma advance_enabled j a (st st' : @gateway_state num) :
  nth_error (process st') j = nth_error (process st) j ->
  advance _options j a st <> None -> advance _options j a st' <> None.
Proof.
  unfold advance. intros ->.
  destruct (nth_error (process st) j) as [p|]; [|auto].
  destruct (step_promise _options a p) as [[p' obs]|]; [discriminate | auto].
Qed.

(** Once a queue's promise carries a rejection, nothing is observed for it
    any more: the rejection only moves up the chain. *)
Lemma rejected_is_silent schedule :
  forall (st st' : @gateway_state num) i e senderId rest,
    nth_error (process st) i = Some (chain (Rejected e) senderId rest) ->
    run _options schedule st = Some st' ->
    task_trace i (trace st') = task_trace i (trace st) /\
    exists rest',
      nth_error (process st') i = Some (chain (Rejected e) senderId rest').
Proof.
  induction schedule as [|t schedule IH]; intros st st' i e senderId rest Hp;
    simpl.
  - intros Heq. inversion Heq; subst. eauto.
  - destruct (step _options t st) as [st1|] eqn:Hstep; [|discriminate].
    intros Hrun.
    assert (Hone : task_trace i (trace st1) = task_trace i (trace st) /\
                   exists rest1, nth_error (process st1) i
                                 = Some (chain (Rejected e) senderId rest1)).
    { assert (Hadv : forall j a, advance _options j a st = Some st1 ->
                task_trace i (trace st1) = task_trace i (trace st) /\
                exists rest1, nth_error (process st1) i
                              = Some (chain (Rejected e) senderId rest1)).
      { intros j a Hadv. destruct (Nat.eq_dec i j) as [<- | Hneq].
        - destruct (advance_inv _ _ _ _ Hadv)
            as (p & p' & obs & Hp' & Hs & ->).
          rewrite Hp in Hp'. inversion Hp'; subst p. simpl.
          destruct rest as [|x rest]; [discriminate|].
          rewrite step_chain_rejected in Hs.
          destruct a; [|discriminate]. inversion Hs; subst p' obs.
          simpl. rewrite app_nil_r. split; [reflexivity|].
          exists rest. eapply nth_error_replace_nth_same; eauto.
        - destruct (advance_other _ _ _ _ _ Hadv Hneq) as [Hsame Htrace].
          split; [assumption|]. exists rest. congruence. }
      destruct t as [j | j r | | j]; simpl in Hstep; eauto.
      - destruct (call st); [|discriminate].
        destruct (forallb is_fulfilled (process st)); [|discriminate].
        inversion Hstep; subst; simpl; eauto.
      - destruct (call st); [|discriminate].
        destruct (nth_error (process st) j) as [[ | e' | | ]|];
          try discriminate.
        inversion Hstep; subst; simpl; eauto. }
    destruct Hone as [Htrace (rest1 & Hp1)].
    destruct (IH _ _ _ _ _ _ Hp1 Hrun) as [Htrace' Hrest'].
    split; [congruence | assumption].
Qed.

(** The rejection reaches the top of the chain in as many jobs as events
    were left, touching nothing else. *)
Lemma rejection_propagates rest :
  forall (st : @gateway_state num) i e senderId,
    nth_error (process st) i = Some (chain (Rejected e) senderId rest) ->
    exists st',
      run _options (repeat (Job i) (List.length rest)) st = Some st' /\
      nth_error (process st') i = Some (Rejected e) /\
      call st' = call st /\
      trace st' = trace st /\
      forall j, j <> i -> nth_error (process st') j = nth_error (process st) j.
Proof.
  induction rest as [|x rest IH]; intros st i e senderId Hp; simpl.
  - exists st. auto.
  - unfold advance. rewrite Hp, step_chain_rejected.
    match goal with |- context [run _ _ ?s] => set (st1 := s) end.
    destruct (IH st1 i e senderId) as (st' & Hrun & Hp' & Hcall & Htrace & Hothers).
    { simpl. eapply nth_error_replace_nth_same; eauto. }
    exists st'. split; [assumption|]. split; [assumption|].
    split; [assumption|]. split.
    + rewrite Htrace. simpl. apply app_nil_r.
    + intros j Hneq. rewrite Hothers by assumption. simpl.
      apply nth_error_replace_nth_other. assumption.
Qed.

(** Once the call is done it stays as it is. *)
Lemma step_keeps_done t (st st' : @gateway_state num) r :
  step _options t st = Some st' -> call st = Done r -> call st' = Done r.
Proof.
  destruct t as [j | j r' | | j]; simpl; intros Hstep Hdone.
  - destruct (advance_inv _ _ _ _ Hstep) as (? & ? & ? & _ & _ & ->).
    assumption.
  - destruct (advance_inv _ _ _ _ Hstep) as (? & ? & ? & _ & _ & ->).
    assumption.
  - rewrite Hdone in Hstep. discriminate.
  - rewrite Hdone in Hstep. discriminate.
Qed.

(** ** A run on which the processor always succeeds *)

Lemma replace_nth_same {A : Type} (l : list A) i x :
  nth_error l i = Some x -> replace_nth i x l = l.
Proof.
  revert i. induction l as [|z l IH]; intros [|i]; simpl;
    try discriminate; intros Heq.
  - congruence.
  - f_equal. auto.
Qed.

Lemma replace_nth_twice {A : Type} (l : list A) i x y :
  replace_nth i x (replace_nth i y l) = replace_nth i x l.
Proof.
  revert i. induction l as [|z l IH]; intros [|i]; simpl; congruence.
Qed.



Lemma advance_eq i a (st : @gateway_state num) p p' obs :
  nth_error (process st) i = Some p ->
  step_promise _options a p = Some (p', obs) ->
  advance _options i a st
  = Some {| process := replace_nth i p' (process st);
            call := call st;
            trace := trace st ++ map (pair i) obs |}.
Proof. unfold advance. intros -> ->. reflexivity. Qed.

Lemma rejection_propagates_process rest :
  forall (st : @gateway_state num) i e senderId,
    nth_error (process st) i = Some (chain (Rejected e) senderId rest) ->
    exists st',
      run _options (repeat (Job i) (List.length rest)) st = Some st' /\
      process st' = replace_nth i (Rejected e) (process st) /\
      call st' = call st /\
      trace st' = trace st.
Proof.
  induction rest as [|x rest IH]; intros st i e senderId Hp.
  - exists st. simpl. repeat split; auto.
    symmetry. apply replace_nth_same. assumption.
  - pose proof (advance_eq _ _ _ _ _ _ Hp
                  (step_chain_rejected RunJob e senderId x rest)) as Hadv.
    set (st1 := {| process := _ |}) in Hadv.
    destruct (IH st1 i e senderId) as (st' & Hrun & Hproc & Hcall & Htrace).
    { simpl. eapply nth_error_replace_nth_same; eauto. }
    exists st'. split; [cbn [List.length repeat run step]; rewrite Hadv;
                        assumption|].
    split; [rewrite Hproc; simpl; apply replace_nth_twice|].
    split; [assumption|]. rewrite Htrace. simpl. apply app_nil_r.
Qed.

(** One queue, run to its end: to a fulfilled promise when every event of
    it prints, to a settled one anyway. *)
Lemma run_queue events :
  forall (st : @gateway_state num) i v senderId,
    nth_error (process st) i = Some (chain (Fulfilled v) senderId events) ->
    exists st' p',
      run _options (queue_schedule _options i senderId events) st = Some st' /\
      process st' = replace_nth i p' (process st) /\
      is_settled p' = true /\
      (forallb (fun x => printable _options (message x)) events = true ->
       is_fulfilled p' = true) /\
      call st' = call st /\
      (forall j, j <> i -> task_trace j (trace st') = task_trace j (trace st)) /\
      called (task_trace i (trace st'))
      = called (task_trace i (trace st)) ++ calls_of _options senderId events.
Proof.
  induction events as [|x events IH]; intros st i v senderId Hp.
  - exists st, (Fulfilled v). simpl. rewrite app_nil_r.
    repeat split; auto. symmetry. apply replace_nth_same. assumption.
  - cbn [queue_schedule calls_of forallb].
    pose proof (step_chain_fulfilled RunJob v senderId x events) as Hjob.
    destruct (processMessage _options (message x) senderId (pageId x))
      as [r|c|e] eqn:Hpm.
    + (* discarded: one job *)
      pose proof (advance_eq _ _ _ _ _ _ Hp Hjob) as Hadv.
      set (st1 := {| process := _ |}) in Hadv.
      destruct (IH st1 i (Some r) senderId)
        as (st' & p' & Hrun & Hproc & Hsettled & Hful & Hcall & Hothers
            & Hcalls).
      { simpl. eapply nth_error_replace_nth_same; eauto. }
      exists st', p'. split.
      { cbn [run step]. rewrite Hadv. assumption. }
      split; [rewrite Hproc; simpl; apply replace_nth_twice|].
      split; [assumption|]. split.
      { intros Hall. apply Bool.andb_true_iff in Hall. tauto. }
      split; [assumption|]. split.
      * intros j Hneq. rewrite Hothers by assumption. simpl.
        rewrite app_nil_r. reflexivity.
      * rewrite Hcalls. simpl. rewrite app_nil_r. reflexivity.
    + (* dispatched: the call is made, then settles *)
      pose proof (advance_eq _ _ _ _ _ _ Hp Hjob) as Hadv.
      set (st1 := {| process := _ |}) in Hadv.
      assert (Hp1 : nth_error (process st1) i
                    = Some (chain (Pending c) senderId events)).
      { simpl. eapply nth_error_replace_nth_same; eauto. }
      pose proof (advance_eq _ _ _ _ _ _ Hp1
                    (step_chain_pending (Settles settle_ok) c senderId events))
        as Hadv1.
      set (st2 := {| process := _ |}) in Hadv1.
      destruct (IH st2 i (Some {| status := 200 |}) senderId)
        as (st' & p' & Hrun & Hproc & Hsettled & Hful & Hcall & Hothers
            & Hcalls).
      { simpl. eapply nth_error_replace_nth_same; eauto. }
      exists st', p'. split.
      { cbn [run step]. rewrite Hadv, Hadv1. assumption. }
      split; [rewrite Hproc; simpl; rewrite !replace_nth_twice; reflexivity|].
      split; [assumption|]. split.
      { intros Hall. apply Bool.andb_true_iff in Hall. tauto. }
      split; [assumption|]. split.
      * intros j Hneq. rewrite Hothers by assumption.
        unfold st2, st1. cbn [trace]. rewrite !task_trace_app.
        rewrite !(task_trace_other i j) by assumption.
        rewrite !app_nil_r. reflexivity.
      * rewrite Hcalls. unfold st2, st1. cbn [trace].
        rewrite !task_trace_app, !task_trace_same.
        rewrite !called_app. simpl. rewrite app_nil_r, <- app_assoc.
        reflexivity.
    + (* thrown: the queue rejects, and the rejection passes up *)
      pose proof (advance_eq _ _ _ _ _ _ Hp Hjob) as Hadv.
      set (st1 := {| process := _ |}) in Hadv.
      destruct (rejection_propagates_process events st1 i e senderId)
        as (st' & Hrun & Hproc & Hcall & Htrace).
      { simpl. eapply nth_error_replace_nth_same; eauto. }
      exists st', (Rejected e). split.
      { cbn [run step]. rewrite Hadv. assumption. }
      split; [rewrite Hproc; simpl; apply replace_nth_twice|].
      split; [reflexivity|]. split.
      { intros Hall. apply Bool.andb_true_iff in Hall.
        destruct (processMessage_throws _ _ _ _ Hpm) as [Hx _].
        destruct Hall as [Hall _]. congruence. }
      split; [assumption|]. rewrite Htrace. simpl. rewrite !app_nil_r.
      split; [reflexivity|]. reflexivity.
Qed.


(** The calls of a queue whose events all print are the ones [event_of]
    asks for. *)
Lemma calls_of_handed_over senderId (events : list (@item num)) :
  forallb (fun x => printable _options (message x)) events = true ->
  calls_of _options senderId events = handed_over _options senderId events.
Proof.
  induction events as [|x events IH]; simpl; [reflexivity|].
  intros Hall. apply Bool.andb_true_iff in Hall. destruct Hall as [Hx Hall].
  fold (handed_over _options senderId events). rewrite <- (IH Hall).
  pose proof (processMessage_throws (message x) senderId (pageId x)) as Hthrows.
  unfold processMessage in *.
  destruct (event_of _options (message x) senderId) as [[event|]|e].
  - reflexivity.
  - reflexivity.
  - destruct (Hthrows e eq_refl). congruence.
Qed.



(** ** What the processor is called with *)

Lemma queue_invariant_trace senderId events (p : @promise num) tr :
  queue_invariant _options senderId events p tr ->
  (exists inflight, sequential tr inflight) /\
  exists to_come, calls_of _options senderId events = called tr ++ to_come.
Proof.
  intros (done & rest & base & -> & _ & Hbase).
  destruct base as [v|e|c|]; [| | |contradiction].
  - destruct Hbase as (Hseq & -> & Hprints).
    rewrite calls_of_app by assumption. eauto.
  - destruct Hbase as (Hseq & Hskipped & _). eauto.
  - destruct Hbase as (Hseq & -> & Hprints).
    rewrite calls_of_app by assumption. eauto.
Qed.

Lemma in_task_trace i o (tr : list (nat * @observation num)) :
  In (i, o) tr -> In o (task_trace i tr).
Proof.
  intros Hin. unfold task_trace. apply in_map_iff. exists (i, o).
  split; [reflexivity|]. apply filter_In. split; [assumption|].
  apply Nat.eqb_refl.
Qed.

Lemma in_called c (tr : list (@observation num)) :
  In (Called c) tr -> In c (called tr).
Proof.
  induction tr as [|[c'|c' r] tr IH]; simpl; [tauto| |].
  - intros [Heq | Hin]; [inversion Heq|]; auto.
  - intros [Heq | Hin]; [discriminate | auto].
Qed.

(** Nothing can step when the envelope is not a page's. *)
Lemma not_page_runs (body : @webhook_body num) schedule st :
  strict_eq (object body) (VStr "page") = false ->
  run _options schedule (processEvent body) = Some st ->
  schedule = [] /\ st = processEvent body.
Proof.
  intros Hpage. unfold processEvent. rewrite Hpage. simpl.
  destruct schedule as [|[i | i r | | i] schedule]; simpl.
  - intros Heq. inversion Heq. auto.
  - unfold advance. simpl. destruct i; discriminate.
  - unfold advance. simpl. destruct i; discriminate.
  - discriminate.
  - discriminate.
Qed.

(** Every call the processor sees was made by [processMessage] for an
    event of the queue the call is tagged with. *)
Lemma called_origin (body : @webhook_body num) schedule st i c :
  run _options schedule (processEvent body) = Some st ->
  In (i, Called c) (trace st) ->
  exists senderId events x,
    nth_error (entries (fst (grouping body))) i = Some (senderId, events) /\
    In x events /\
    processMessage _options (message x) senderId (pageId x) = Dispatched c.
Proof.
  intros Hrun Hin.
  destruct (strict_eq (object body) (VStr "page")) eqn:Hpage.
  - destruct (reachable_invariant body schedule st Hpage Hrun)
      as (Hlength & Hbound & Hqueues).
    pose proof (Hbound _ _ Hin) as Hi.
    destruct (nth_error (entries (fst (grouping body))) i)
      as [[senderId events]|] eqn:Hq.
    2: { apply nth_error_None in Hq. lia. }
    destruct (Hqueues _ _ _ Hq) as (p & _ & Hinv).
    destruct (queue_invariant_trace _ _ _ _ Hinv) as (_ & to_come & Hcalls).
    assert (Hc : In c (calls_of _options senderId events)).
    { rewrite Hcalls. apply in_or_app. left.
      apply in_called, in_task_trace. assumption. }
    destruct (in_calls_of _ _ _ Hc) as (x & Hx & Hpm).
    exists senderId, events, x. auto.
  - destruct (not_page_runs body schedule st Hpage Hrun) as [_ ->].
    unfold processEvent in Hin. rewrite Hpage in Hin. destruct Hin.
Qed.

(** An event that [processMessage] hands nothing over for, having
    discarded it or thrown on it, is never behind a call. *)
Lemma unhanded_never_called (body : @webhook_body num) schedule st i c msg :
  (forall senderId event,
     event_of _options msg senderId <> Returns (Some event)) ->
  run _options schedule (processEvent body) = Some st ->
  In (i, Called c) (trace st) ->
  sender_message (call_messageSender c) <> msg.
Proof.
  intros Hnone Hrun Hin Hsame.
  destruct (called_origin body schedule st i c Hrun Hin)
    as (senderId & events & x & _ & _ & Hpm).
  unfold processMessage in Hpm.
  destruct (event_of _options (message x) senderId) as [[event|]|e] eqn:He;
    try discriminate.
  inversion Hpm; subst c. simpl in Hsame. subst msg.
  apply (Hnone _ _ He).
Qed.

Lemma event_of_none_any_sender message (senderId senderId' : @value num) :
  event_of _options message senderId = Returns None ->
  event_of _options message senderId' = Returns None.
Proof.
  unfold event_of.
  repeat match goal with
         | |- context [if ?b then _ else _] => destruct b
         | |- context [match to_string ?v with _ => _ end] =>
             destruct (to_string v)
         end; auto; discriminate.
Qed.

(** An event that [processMessage] discards is never behind a call. *)
Lemma discarded_never_called (body : @webhook_body num) schedule st i c msg :
  (forall senderId, event_of _options msg senderId = Returns None) ->
  run _options schedule (processEvent body) = Some st ->
  In (i, Called c) (trace st) ->
  sender_message (call_messageSender c) <> msg.
Proof.
  intros Hnone. apply unhanded_never_called.
  intros senderId event. rewrite Hnone. discriminate.
Qed.

(** Only a thread-control event is ever discarded. *)
Lemma event_of_none_thread_control message (senderId : @value num) :
  event_of _options message senderId = Returns None ->
  truthy (lookup "take_thread_control" message) = true \/
  truthy (lookup "pass_thread_control" message) = true \/
  truthy (lookup "request_thread_control" message) = true.
Proof.
  unfold event_of.
  destruct (truthy (lookup "take_thread_control" message)); [auto|].
  destruct (truthy (lookup "pass_thread_control" message)); [auto|].
  destruct (truthy (lookup "request_thread_control" message)); [auto|].
  discriminate.
Qed.


(** After the events of a queue that are through, the next call of the
    queue is dispatched by the jobs of its promise alone: one job for each
    event discarded on the way, and the job that makes the call. *)
Lemma next_call rest :
  forall (st : @gateway_state num) i v senderId c more,
    nth_error (process st) i = Some (chain (Fulfilled v) senderId rest) ->
    calls_of _options senderId rest = c :: more ->
    exists k st' rest',
      run _options (repeat (Job i) (S k)) st = Some st' /\
      trace st' = trace st ++ [(i, Called c)] /\
      nth_error (process st') i = Some (chain (Pending c) senderId rest') /\
      calls_of _options senderId rest' = more /\
      call st' = call st.
Proof.
  induction rest as [|x rest IH]; intros st i v senderId c more Hp Hcalls;
    [discriminate|].
  cbn [calls_of] in Hcalls.
  pose proof (step_chain_fulfilled RunJob v senderId x rest) as Hjob.
  destruct (processMessage _options (message x) senderId (pageId x))
    as [r|c'|e] eqn:Hpm; [| |discriminate].
  - pose proof (advance_eq _ _ _ _ _ _ Hp Hjob) as Hadv.
    set (st1 := {| process := _ |}) in Hadv.
    destruct (IH st1 i (Some r) senderId c more)
      as (k & st' & rest' & Hrun & Htrace & Hp' & Hmore & Hcall).
    { simpl. eapply nth_error_replace_nth_same; eauto. }
    { assumption. }
    exists (S k), st', rest'. split.
    { cbn [repeat run step] in Hrun |- *. rewrite Hadv. assumption. }
    split; [|auto]. rewrite Htrace. simpl. rewrite app_nil_r. reflexivity.
  - inversion Hcalls; subst c' more.
    pose proof (advance_eq _ _ _ _ _ _ Hp Hjob) as Hadv.
    set (st1 := {| process := _ |}) in Hadv.
    exists 0, st1, rest. split.
    { cbn [repeat run step]. rewrite Hadv. reflexivity. }
    split; [reflexivity|]. split; [|auto].
    simpl. eapply nth_error_replace_nth_same; eauto.
Qed.

Lemma processable_kind kind (message : @props num) :
  In kind PROCESS_EVENTS -> truthy (lookup kind message) = true ->
  processable message = true.
Proof.
  intros Hkind Htruthy. unfold processable. apply existsb_exists.
  exists kind. split; [assumption|]. apply truthy_defined. assumption.
Qed.

(** What [processEvent] passes through is not processable. *)
Lemma others_not_processable (body : @webhook_body num) x :
  In x (snd (grouping body)) -> processable (message x) = false.
Proof.
  rewrite (grouped_others _ _ _ (grouping_grouped body)).
  intros Hin. apply filter_In in Hin. destruct Hin as [_ Hpass].
  unfold passes_through in Hpass. apply Bool.negb_true_iff. assumption.
Qed.

(** Two entries of the map under the same key are one entry. *)
Lemma keys_distinct_nth (m : @js_map num) i j k q k' q' :
  keys_distinct m ->
  nth_error m i = Some (k, q) -> nth_error m j = Some (k', q') ->
  same_value_zero k' k = true -> i = j.
Proof.
  revert i j. induction m as [|[k0 q0] rest IH]; intros [|i] [|j]; simpl;
    try discriminate; intros [Hfresh Hrest] Hi Hj Hsame.
  - reflexivity.
  - inversion Hi; subst k0 q0. apply nth_error_In in Hj.
    rewrite (map_has_false_in _ _ _ _ Hfresh Hj) in Hsame. discriminate.
  - inversion Hj; subst k0 q0. apply nth_error_In in Hi.
    rewrite same_value_zero_sym in Hsame.
    rewrite (map_has_false_in _ _ _ _ Hfresh Hi) in Hsame. discriminate.
  - f_equal. eauto.
Qed.

(** A queue's promise can always be brought to a settled state, whatever
    the other promises and the call are doing. *)
Lemma chain_can_settle rest (st : @gateway_state num) j base senderId :
  nth_error (process st) j = Some (chain base senderId rest) ->
  match base with Then _ _ _ => False | _ => True end ->
  exists schedule st',
    run _options schedule st = Some st' /\
    (exists p', nth_error (process st') j = Some p' /\ is_settled p' = true) /\
    call st' = call st /\
    (forall k, k <> j -> nth_error (process st') k = nth_error (process st) k).
Proof.
  intros Hp Hbase.
  assert (Hfulfilled : forall (s : @gateway_state num) v,
    nth_error (process s) j = Some (chain (Fulfilled v) senderId rest) ->
    exists schedule st',
      run _options schedule s = Some st' /\
      (exists p', nth_error (process st') j = Some p' /\
                  is_settled p' = true) /\
      call st' = call s /\
      (forall k, k <> j -> nth_error (process st') k = nth_error (process s) k)).
  { intros s v Hs.
    destruct (run_queue rest s j v senderId Hs)
      as (st' & p' & Hrun & Hproc & Hsettled & _ & Hcall & _).
    exists (queue_schedule _options j senderId rest), st'.
    split; [assumption|]. rewrite Hproc. split; [|split; [assumption|]].
    - exists p'. split; [|assumption].
      eapply nth_error_replace_nth_same; eauto.
    - intros k Hneq. apply nth_error_replace_nth_other. assumption. }
  destruct base as [v|e|c|]; [| | |contradiction].
  - apply (Hfulfilled st v Hp).
  - destruct (rejection_propagates rest st j e senderId Hp)
      as (st' & Hrun & Hp' & Hcall & _ & Hothers).
    exists (repeat (Job j) (List.length rest)), st'.
    split; [assumption|]. split; [|split; assumption].
    exists (Rejected e). auto.
  - pose proof (advance_eq _ _ _ _ _ _ Hp
                  (step_chain_pending (Settles settle_ok) c senderId rest))
      as Hadv.
    set (st1 := {| process := _ |}) in Hadv.
    destruct (Hfulfilled st1 (Some {| status := 200 |}))
      as (schedule & st' & Hrun & Hsettled & Hcall & Hothers).
    { simpl. eapply nth_error_replace_nth_same; eauto. }
    exists (Settle j settle_ok :: schedule), st'.
    split; [cbn [run step]; rewrite Hadv; assumption|].
    split; [assumption|]. split; [assumption|].
    intros k Hneq. rewrite Hothers by assumption. simpl.
    apply nth_error_replace_nth_other. assumption.
Qed.

Lemma chain_fulfilled (base : @promise num) senderId rest v :
  chain base senderId rest = Fulfilled v -> rest = [] /\ base = Fulfilled v.
Proof.
  destruct rest as [|y rest _] using rev_ind; [auto|].
  rewrite chain_snoc. discriminate.
Qed.

Lemma bottom_chain (base : @promise num) senderId rest :
  bottom (chain base senderId rest) = bottom base.
Proof.
  induction rest as [|y rest IH] using rev_ind; [reflexivity|].
  rewrite chain_snoc. assumption.
Qed.

(** A promise that is fulfilled is a queue all of whose events are
    through, each of them printed. *)
Lemma queue_invariant_fulfilled senderId events (p : @promise num) tr :
  queue_invariant _options senderId events p tr ->
  is_fulfilled p = true ->
  sequential tr None /\
  forallb (fun x => printable _options (message x)) events = true /\
  called tr = handed_over _options senderId events.
Proof.
  intros (done & rest & base & Hevents & -> & Hbase) Hfulfilled.
  destruct (chain base senderId rest) as [v| | |] eqn:Hchain;
    try discriminate.
  apply chain_fulfilled in Hchain. destruct Hchain as [-> ->].
  rewrite app_nil_r in Hevents. subst done.
  destruct Hbase as (Hseq & Hcalled & Hprints).
  split; [assumption|]. split; [assumption|].
  rewrite Hcalled. apply calls_of_handed_over. assumption.
Qed.

(** What is left of a queue when no call of it is open and it has not
    failed gives rise to the calls it has still to make. *)
Lemma queue_invariant_to_come senderId events (p : @promise num) tr
  base c more :
  queue_invariant _options senderId events p tr ->
  bottom p = base ->
  match base with Fulfilled _ | Pending _ => True | _ => False end ->
  calls_of _options senderId events = called tr ++ c :: more ->
  exists rest,
    p = chain base senderId rest /\
    calls_of _options senderId rest = c :: more.
Proof.
  intros (done & rest & base' & -> & -> & Hbase) Hbottom Hshape Hcalls.
  rewrite bottom_chain in Hbottom.
  assert (Hsame : base' = base).
  { destruct base'; try contradiction; exact Hbottom. }
  subst base'. exists rest. split; [reflexivity|].
  assert (Hdone : called tr = calls_of _options senderId done /\
                  forallb (fun x => printable _options (message x)) done
                  = true).
  { destruct base; try contradiction; tauto. }
  destruct Hdone as [Hcalled Hprints].
  rewrite calls_of_app, Hcalled in Hcalls by assumption.
  eapply app_inv_head. eassumption.
Qed.

(** ** The dispatch pipeline *)


(** C2: the events of one sender are dispatched one at a time, in the order
    the envelope has them.  A sender's queue holds its events in envelope
    order, and every call made for that sender comes from that queue.
    Whatever the schedule, what the processor observes for the queue is an
    alternation of calls and their settlements, no call made while the one
    before is open, and the calls made so far are an initial part of the
    calls the queue gives rise to.  The queue moves on: its call in flight
    can settle at any time, whatever the other queues do; once it has
    settled with success, or when no call is open, the jobs of the queue's
    promise alone make the next call of the queue; and when the promise is
    fulfilled every event of the queue has printed and the processor has
    been called, with every call settled, for each event that [event_of]
    hands over. *)
Theorem per_sender_dispatch_is_sequential
  (body : @webhook_body num) schedule st i senderId events :
  strict_eq (object body) (VStr "page") = true ->
  run _options schedule (processEvent body) = Some st ->
  nth_error (entries (fst (grouping body))) i = Some (senderId, events) ->
  events = filter (in_queue senderId) (all_items body)
  /\ (forall j c,
        In (j, Called c) (trace st) ->
        same_value_zero (sender_senderId (call_messageSender c)) senderId
        = true ->
        j = i)
  /\ (exists inflight, sequential (task_trace i (trace st)) inflight)
  /\ (exists to_come,
        calls_of _options senderId events
        = called (task_trace i (trace st)) ++ to_come)
  /\ (forall p c r,
        nth_error (process st) i = Some p -> bottom p = Pending c ->
        exists st1,
          step _options (Settle i (Returns r)) st = Some st1 /\
          trace st1 = trace st ++ [(i, Settled c (Returns r))] /\
          forall c' more,
            calls_of _options senderId events
            = called (task_trace i (trace st)) ++ c' :: more ->
            exists k st2,
              run _options (repeat (Job i) (S k)) st1 = Some st2 /\
              trace st2 = trace st1 ++ [(i, Called c')])
  /\ (forall p v c more,
        nth_error (process st) i = Some p -> bottom p = Fulfilled v ->
        calls_of _options senderId events
        = called (task_trace i (trace st)) ++ c :: more ->
        exists k st',
          run _options (repeat (Job i) (S k)) st = Some st' /\
          trace st' = trace st ++ [(i, Called c)])
  /\ (forall p,
        nth_error (process st) i = Some p -> is_fulfilled p = true ->
        sequential (task_trace i (trace st)) None /\
        forallb (fun x => printable _options (message x)) events = true /\
        called (task_trace i (trace st))
        = handed_over _options senderId events).
Proof.
  intros Hpage Hrun Hq.
  destruct (reachable_invariant body schedule st Hpage Hrun)
    as (_ & _ & Hqueues).
  destruct (Hqueues _ _ _ Hq) as (p & Hp & Hinv).
  split; [|split; [|split; [|split; [|split; [|split]]]]].
  - apply (grouped_queues _ _ _ (grouping_grouped body)).
    eapply nth_error_In. eassumption.
  - intros j c Hin Hsame.
    destruct (called_origin body schedule st j c Hrun Hin)
      as (senderId' & events' & x & Hq' & _ & Hpm).
    unfold processMessage in Hpm.
    destruct (event_of _options (message x) senderId') as [[event|]|e];
      try discriminate.
    inversion Hpm; subst c. simpl in Hsame. symmetry.
    eapply keys_distinct_nth; eauto.
    apply (grouped_keys _ _ _ (grouping_grouped body)).
  - eapply queue_invariant_trace. eassumption.
  - eapply queue_invariant_trace. eassumption.
  - intros p0 c r Hp0 Hbottom.
    assert (p0 = p) by congruence. subst p0.
    assert (Hrest : exists rest, p = chain (Pending c) senderId rest /\
              forall c' more,
                calls_of _options senderId events
                = called (task_trace i (trace st)) ++ c' :: more ->
                calls_of _options senderId rest = c' :: more).
    { destruct Hinv as (done & rest & base & Hevents & Hchain & Hbase).
      subst p. rewrite bottom_chain in Hbottom.
      destruct base; try contradiction; try discriminate.
      simpl in Hbottom. inversion Hbottom; subst c0.
      exists rest. split; [reflexivity|]. intros c' more Hcalls.
      destruct Hbase as (_ & Hcalled & Hprints). subst events.
      rewrite calls_of_app, Hcalled in Hcalls by assumption.
      eapply app_inv_head. eassumption. }
    destruct Hrest as (rest & -> & Hnext).
    pose proof (advance_eq _ _ _ _ _ _ Hp
                  (step_chain_pending (Settles (Returns r)) c senderId rest))
      as Hadv.
    set (st1 := {| process := _ |}) in Hadv.
    exists st1. split; [exact Hadv|]. split; [reflexivity|].
    intros c' more Hcalls.
    destruct (next_call rest st1 i (Some r) senderId c' more)
      as (k & st2 & _ & Hrun2 & Htrace2 & _).
    { simpl. eapply nth_error_replace_nth_same; eauto. }
    { auto. }
    exists k, st2. auto.
  - intros p0 v c more Hp0 Hbottom Hcalls.
    assert (p0 = p) by congruence. subst p0.
    destruct (queue_invariant_to_come _ _ _ _ (Fulfilled v) c more
                Hinv Hbottom I Hcalls) as (rest & -> & Hrest).
    destruct (next_call rest st i v senderId c more Hp Hrest)
      as (k & st' & _ & Hrun' & Htrace' & _).
    exists k, st'. auto.
  - intros p0 Hp0 Hfulfilled.
    assert (p0 = p) by congruence. subst p0.
    eapply queue_invariant_fulfilled; eassumption.
Qed.

(** C3, as the code has it: when the processor fails on an event, the
    events left in that sender's queue are never dispatched, the promises of
    the other queues are as they were and can step as before, and the call
    throws the reason of that one queue as soon as the rejection has passed
    up its chain, whatever the other queues are doing.  Nothing changes the
    result of the call afterwards, and every other queue can still run to
    its end. *)
Theorem processor_failure_scope
  (st : @gateway_state num) i c senderId rest e :
  nth_error (process st) i = Some (chain (Pending c) senderId rest) ->
  exists st1,
    step _options (Settle i (Throws e)) st = Some st1
    /\ nth_error (process st1) i = Some (chain (Rejected e) senderId rest)
    /\ (forall schedule st',
          run _options schedule st1 = Some st' ->
          called (task_trace i (trace st'))
          = called (task_trace i (trace st)))
    /\ (forall j, j <> i ->
          nth_error (process st1) j = nth_error (process st) j)
    /\ (forall j a, j <> i ->
          advance _options j a st <> None ->
          advance _options j a st1 <> None)
    /\ (forall otherEvents,
          call st = Awaiting otherEvents ->
          exists st2,
            run _options (repeat (Job i) (List.length rest) ++ [JoinReject i])
                st1 = Some st2
            /\ call st2 = Done (Throws e)
            /\ (forall j, j <> i ->
                  nth_error (process st2) j = nth_error (process st) j)
            /\ (forall j a, j <> i ->
                  advance _options j a st <> None ->
                  advance _options j a st2 <> None)
            /\ (forall t st3,
                  step _options t st2 = Some st3 ->
                  call st3 = Done (Throws e))
            /\ (forall j base senderId' rest',
                  j <> i ->
                  nth_error (process st) j
                  = Some (chain base senderId' rest') ->
                  match base with Then _ _ _ => False | _ => True end ->
                  exists schedule st3,
                    run _options schedule st2 = Some st3 /\
                    (exists p', nth_error (process st3) j = Some p' /\
                                is_settled p' = true) /\
                    call st3 = Done (Throws e))).
Proof.
  intros Hp.
  pose proof (advance_eq _ _ _ _ _ _ Hp
                (step_chain_pending (Settles (Throws e)) c senderId rest))
    as Hadv.
  set (st1 := {| process := _ |}) in Hadv.
  assert (Hp1 : nth_error (process st1) i
                = Some (chain (Rejected e) senderId rest)).
  { simpl. eapply nth_error_replace_nth_same; eauto. }
  assert (Hothers : forall j, j <> i ->
            nth_error (process st1) j = nth_error (process st) j).
  { intros j Hneq. simpl. apply nth_error_replace_nth_other. assumption. }
  exists st1. split; [exact Hadv|]. split; [assumption|].
  split; [|split; [assumption|split]].
  - intros schedule st' Hrun.
    destruct (rejected_is_silent schedule _ _ _ _ _ _ Hp1 Hrun) as [-> _].
    unfold st1. cbn [trace]. rewrite task_trace_app, task_trace_same.
    rewrite called_app. simpl. apply app_nil_r.
  - intros j a Hneq. apply advance_enabled. auto.
  - intros otherEvents Hcall. rewrite run_app.
    destruct (rejection_propagates rest st1 i e senderId Hp1)
      as (st' & Hrun & Hp' & Hcall' & Htrace & Hothers').
    rewrite Hrun. cbn [run step]. rewrite Hcall'. unfold st1 at 1.
    cbn [call]. rewrite Hcall, Hp'.
    eexists. split; [reflexivity|]. cbn [call process].
    split; [reflexivity|].
    assert (Hsame : forall j, j <> i ->
              nth_error (process st') j = nth_error (process st) j).
    { intros j Hneq. rewrite Hothers' by assumption. auto. }
    split; [assumption|]. split; [|split].
    + intros j a Hneq. apply advance_enabled. simpl. auto.
    + intros t st3 Hstep. eapply step_keeps_done; eauto.
    + intros j base senderId' rest' Hneq Hj Hbase.
      match goal with |- context [run _ _ ?s] => set (st2 := s) end.
      destruct (chain_can_settle rest' st2 j base senderId')
        as (schedule & st3 & Hrun3 & Hsettled & Hcall3 & _).
      { simpl. rewrite Hsame by assumption. assumption. }
      { assumption. }
      exists schedule, st3. split; [assumption|]. split; [assumption|].
      rewrite Hcall3. reflexivity.
Qed.

(** C7: an envelope that is not a page's returns the empty list at once:
    no queue is built, no step of the event loop is enabled, so the
    processor is never called, and nothing is thrown. *)
Theorem processEvent_not_page (body : @webhook_body num) :
  strict_eq (object body) (VStr "page") = false ->
  processEvent body
  = {| process := []; call := Done (Returns []); trace := [] |}
  /\ forall schedule st,
       run _options schedule (processEvent body) = Some st ->
       schedule = [] /\ st = processEvent body /\ trace st = [].
Proof.
  intros Hpage.
  assert (Hinit : processEvent body
                  = {| process := []; call := Done (Returns []); trace := [] |}).
  { unfold processEvent. rewrite Hpage. reflexivity. }
  split; [assumption|].
  intros schedule st Hrun.
  destruct (not_page_runs body schedule st Hpage Hrun) as [-> ->].
  rewrite Hinit. auto.
Qed.

(** ** Thread control *)

Lemma processMessage_discards msg (senderId pageId : @value num) :
  event_of _options msg senderId = Returns None ->
  processMessage _options msg senderId pageId = Resolved {| status := 201 |}.
Proof. unfold processMessage. intros ->. reflexivity. Qed.

Lemma discarded_step msg v (senderId pageId : @value num) rest :
  event_of _options msg senderId = Returns None ->
  step_promise _options RunJob
    (chain (Fulfilled v) senderId
           ({| message := msg; pageId := pageId |} :: rest))
  = Some (chain (Fulfilled (Some {| status := 201 |})) senderId rest, []).
Proof.
  intros Hnone. rewrite step_chain_fulfilled. simpl.
  rewrite processMessage_discards by assumption. reflexivity.
Qed.

Lemma not_passed_through (body : @webhook_body num) x :
  processable (message x) = true -> ~ In x (snd (grouping body)).
Proof.
  intros Hproc Hin. rewrite (others_not_processable body x Hin) in Hproc.
  discriminate.
Qed.

(** C5: where the previous owner of a [take_thread_control] event and the
    configured [appId] both print, the event is discarded when they print
    the same, whatever [takeThreadAction] is: it is not passed through and
    the processor is never called for it.  When they print differently and
    there is a [takeThreadAction], [processMessage] makes one call, with
    the postback built from the sender id, that action, the
    [take_thread_control] payload and the event's timestamp. *)
Theorem take_thread_control_rule (msg : @props num) (owner app : string) :
  let control := lookup "take_thread_control" msg in
  let taken_from_self := String.eqb owner app in
  truthy control = true ->
  to_string (get_prop control "previous_owner_app_id") = Some owner ->
  to_string (appId _options) = Some app ->
  (taken_from_self = true ->
   (forall senderId pageId,
      processMessage _options msg senderId pageId
      = Resolved {| status := 201 |})
   /\ (forall body x, In x (snd (grouping body)) -> message x <> msg)
   /\ (forall body schedule st i c,
         run _options schedule (processEvent body) = Some st ->
         In (i, Called c) (trace st) ->
         sender_message (call_messageSender c) <> msg))
  /\ (taken_from_self = false ->
      truthy (takeThreadAction _options) = true ->
      (forall senderId pageId,
         processMessage _options msg senderId pageId
         = Dispatched
             {| call_event :=
                  PostBack senderId (takeThreadAction _options) control
                           VNull VNull (lookup "timestamp" msg);
                call_pageId := pageId;
                call_messageSender :=
                  {| sender_options := _options;
                     sender_senderId := senderId;
                     sender_message := msg |} |})
      /\ (forall body senderId events x,
            In (senderId, events) (entries (fst (grouping body))) ->
            In x events -> message x = msg ->
            same_value_zero senderId (senderIdOf msg) = true)).
Proof.
  intros control taken_from_self Hcontrol Howner Happ.
  assert (Hproc : processable msg = true).
  { apply (processable_kind "take_thread_control"); [|assumption].
    simpl. auto 10. }
  split.
  - intros Hself.
    assert (Hnone : forall senderId,
              event_of _options msg senderId = Returns None).
    { intros senderId. unfold event_of. fold control.
      rewrite Hcontrol, Howner, Happ.
      fold taken_from_self. rewrite Hself, Bool.andb_false_r. reflexivity. }
    split; [|split].
    + intros senderId pageId. apply processMessage_discards. apply Hnone.
    + intros body x Hin Hx.
      apply (not_passed_through body x); [rewrite Hx|]; assumption.
    + intros body schedule st i c. apply discarded_never_called. assumption.
  - intros Hother Haction. split.
    + intros senderId pageId. unfold processMessage, event_of. fold control.
      rewrite Hcontrol, Howner, Happ. fold taken_from_self.
      rewrite Hother, Haction. reflexivity.
    + intros body senderId events x Hq Hx Hmsg.
      destruct (grouped_queues _ _ _ (grouping_grouped body) _ _ Hq)
        as [_ Hfilter].
      rewrite Hfilter in Hx. apply filter_In in Hx. destruct Hx as [_ Hx].
      unfold in_queue in Hx. apply Bool.andb_true_iff in Hx.
      rewrite <- Hmsg. apply Hx.
Qed.

(** C8: a [pass_thread_control] event met without a [passThreadAction], or
    a [request_thread_control] event met without a [requestThreadAction],
    is consumed: [processMessage] resolves with [{ status: 201 }], the
    queue's promise moves on fulfilled, the processor is never called for
    the event, and the event is not in the list the call returns. *)
Theorem unconfigured_thread_control_is_consumed (msg : @props num) :
  truthy (lookup "take_thread_control" msg) = false ->
  (truthy (lookup "pass_thread_control" msg) = true /\
   truthy (passThreadAction _options) = false)
  \/ (truthy (lookup "pass_thread_control" msg) = false /\
      truthy (lookup "request_thread_control" msg) = true /\
      truthy (requestThreadAction _options) = false) ->
  (forall senderId pageId,
     processMessage _options msg senderId pageId
     = Resolved {| status := 201 |})
  /\ (forall v senderId pageId rest,
        step_promise _options RunJob
          (chain (Fulfilled v) senderId
                 ({| message := msg; pageId := pageId |} :: rest))
        = Some (chain (Fulfilled (Some {| status := 201 |})) senderId rest,
                []))
  /\ (forall body schedule st i c,
        run _options schedule (processEvent body) = Some st ->
        In (i, Called c) (trace st) ->
        sender_message (call_messageSender c) <> msg)
  /\ (forall body x, In x (snd (grouping body)) -> message x <> msg).
Proof.
  intros Htake Hkind.
  assert (Hnone : forall senderId,
            event_of _options msg senderId = Returns None).
  { intros senderId. unfold event_of. rewrite Htake.
    destruct Hkind as [[Hpass Haction] | (Hpass & Hrequest & Haction)].
    - rewrite Hpass, Haction. reflexivity.
    - rewrite Hpass, Hrequest, Haction. reflexivity. }
  assert (Hproc : processable msg = true).
  { destruct Hkind as [[Hpass _] | (_ & Hrequest & _)].
    - apply (processable_kind "pass_thread_control"); [simpl; tauto|].
      assumption.
    - apply (processable_kind "request_thread_control"); [simpl; tauto|].
      assumption. }
  split; [|split; [|split]].
  - intros senderId pageId. apply processMessage_discards. apply Hnone.
  - intros v senderId pageId rest. apply discarded_step. apply Hnone.
  - intros body schedule st i c. apply discarded_never_called. assumption.
  - intros body x Hin Hx.
    apply (not_passed_through body x); [rewrite Hx|]; assumption.
Qed.

(** C10: an event the thread-control rules discard is a thread-control
    event; [processMessage] resolves it with [{ status: 201 }] without a
    call to the processor; the queue's promise takes one job to pass it,
    ends up fulfilled with nothing observed, and from there steps exactly
    as it would after an event the processor has handled.  The sender's
    later events are dispatched all the same: from a queue that has such
    an event next, the jobs of the queue's promise alone lead to the next
    call the rest of the queue gives rise to, in two jobs when that call
    is for the event that follows. *)
Theorem discarded_event_resolves (msg : @props num) (senderId pageId : @value num) :
  event_of _options msg senderId = Returns None ->
  (truthy (lookup "take_thread_control" msg) = true \/
   truthy (lookup "pass_thread_control" msg) = true \/
   truthy (lookup "request_thread_control" msg) = true)
  /\ processMessage _options msg senderId pageId
     = Resolved {| status := 201 |}
  /\ (forall v rest,
        step_promise _options RunJob
          (chain (Fulfilled v) senderId
                 ({| message := msg; pageId := pageId |} :: rest))
        = Some (chain (Fulfilled (Some {| status := 201 |})) senderId rest,
                []))
  /\ (forall a r rest,
        step_promise _options a
          (chain (Fulfilled (Some {| status := 201 |})) senderId rest)
        = step_promise _options a (chain (Fulfilled (Some r)) senderId rest))
  /\ (forall (st : @gateway_state num) i v rest c more,
        nth_error (process st) i
        = Some (chain (Fulfilled v) senderId
                      ({| message := msg; pageId := pageId |} :: rest)) ->
        calls_of _options senderId rest = c :: more ->
        exists k st',
          run _options (repeat (Job i) (S (S k))) st = Some st' /\
          trace st' = trace st ++ [(i, Called c)])
  /\ (forall (st : @gateway_state num) i v next pageId' rest event,
        nth_error (process st) i
        = Some (chain (Fulfilled v) senderId
                      ({| message := msg; pageId := pageId |}
                       :: {| message := next; pageId := pageId' |} :: rest)) ->
        event_of _options next senderId = Returns (Some event) ->
        exists st',
          run _options [Job i; Job i] st = Some st' /\
          trace st'
          = trace st
            ++ [(i, Called {| call_event := event;
                              call_pageId := pageId';
                              call_messageSender :=
                                {| sender_options := _options;
                                   sender_senderId := senderId;
                                   sender_message := next |} |})])
  /\ (forall body schedule st i c,
        run _options schedule (processEvent body) = Some st ->
        In (i, Called c) (trace st) ->
        sender_message (call_messageSender c) <> msg).
Proof.
  intros Hnone.
  split; [eapply event_of_none_thread_control; eassumption|].
  split; [apply processMessage_discards; assumption|].
  split; [intros v rest; apply discarded_step; assumption|].
  split; [|split; [|split]].
  - intros a r [|x rest].
    + reflexivity.
    + rewrite !step_chain_fulfilled. reflexivity.
  - intros st i v rest c more Hp Hcalls.
    pose proof (advance_eq _ _ _ _ _ _ Hp
                  (discarded_step msg v senderId pageId rest Hnone)) as Hadv.
    set (st1 := {| process := _ |}) in Hadv.
    destruct (next_call rest st1 i (Some {| status := 201 |}) senderId c more)
      as (k & st' & _ & Hrun & Htrace & _).
    { simpl. eapply nth_error_replace_nth_same; eauto. }
    { assumption. }
    exists k, st'. split.
    + cbn [repeat run step] in Hrun |- *. rewrite Hadv. assumption.
    + rewrite Htrace. simpl. rewrite app_nil_r. reflexivity.
  - intros st i v next pageId' rest event Hp Hevent.
    set (x := {| message := next; pageId := pageId' |}) in *.
    pose proof (advance_eq _ _ _ _ _ _ Hp
                  (discarded_step msg v senderId pageId (x :: rest) Hnone))
      as Hadv.
    set (st1 := {| process := _ |}) in Hadv.
    assert (Hp1 : nth_error (process st1) i
                  = Some (chain (Fulfilled (Some {| status := 201 |})) senderId
                                (x :: rest))).
    { simpl. eapply nth_error_replace_nth_same; eauto. }
    pose proof (step_chain_fulfilled RunJob (Some {| status := 201 |})
                  senderId x rest) as Hjob.
    unfold processMessage in Hjob. cbn [message x] in Hjob.
    rewrite Hevent in Hjob.
    pose proof (advance_eq _ _ _ _ _ _ Hp1 Hjob) as Hadv1.
    cbn [run step]. rewrite Hadv, Hadv1.
    eexists. split; [reflexivity|]. simpl. rewrite app_nil_r. reflexivity.
  - intros body schedule st i c. apply discarded_never_called.
    intros senderId'. eapply event_of_none_any_sender. eassumption.
Qed.

End Properties.

(** * The properties at work on concrete envelopes *)

Example split_signature :
  split "="%char "sha1=0a1b2c" = ["sha1"; "0a1b2c"]
  /\ split "="%char "0a1b2c" = ["0a1b2c"]
  /\ @signatureHash "sha1=0a1b=2c" = Some "0a1b"
  /\ @signatureHash "0a1b2c" = None.
Proof. repeat split. Qed.

Example template_literal_of_app_id :
  to_string (VNum (int 123)) = to_string (@VStr safe_integer "123")
  /\ to_string (@VUndefined safe_integer) = Some "undefined"
  /\ to_string (VArr 0 [VNum (int 1); VNull; VStr "a"]) = Some "1,,a"
  /\ to_string (VObj 1 [("id", VNum (int 1))]) = Some "[object Object]"
  /\ to_string (VObj 1 [("toString", VNum (int 1))]) = None
  /\ to_string (VArr 0 [VNum (int 1); VObj 1 [("toString", VNull)]]) = None.
Proof. repeat split. Qed.

Example unprintable_owner_throws_whatever_the_action :
  processMessage Example.config Example.take_from_unprintable
                 (VStr "A") (VStr "page-1") = Threw TypeError
  /\ processMessage Example.open_config Example.take_from_unprintable
                    (VStr "A") (VStr "page-1") = Threw TypeError
  /\ run Example.config [Job 0; Job 0; JoinReject 0]
         (processEvent (Example.page_of [Example.take_from_unprintable;
                                         Example.second_of_A]))
     = Some {| process := [Rejected TypeError];
               call := Done (Throws TypeError);
               trace := [] |}.
Proof. repeat split. Qed.

Example senderIdOf_examples :
  senderIdOf Example.text_of_A = VStr "A"
  /\ senderIdOf [("message", @VStr safe_integer "no sender")] = VNull
  /\ senderIdOf [("sender", VObj 1 [("id", @VStr safe_integer "")])] = VNull.
Proof. repeat split. Qed.

Example two_senders_in_flight :
  run Example.config [Job 0; Job 1] (processEvent Example.two_senders)
  = Some Example.both_in_flight
  /\ step Example.config JoinFulfil Example.both_in_flight = None
  /\ step Example.config (Job 0) Example.both_in_flight = None.
Proof. repeat split. Qed.

Lemma verifyWebhook_challenge_witness :
  verifyWebhook Example.config
    [("hub.mode", VStr "subscribe");
     ("hub.verify_token", VStr "bot-token");
     ("hub.challenge", VStr "1158201444")]
  = Returns (VStr "1158201444")
  /\ exists reason,
       verifyWebhook Example.config [("hub.verify_token", VStr "guess")]
       = Throws (ErrorWith ("Unauthorized: " ++ reason) 401 401).
Proof.
  split.
  - exact (proj2 (verifyWebhook_challenge Example.config
                    [("hub.mode", VStr "subscribe");
                     ("hub.verify_token", VStr "bot-token");
                     ("hub.challenge", VStr "1158201444")])
                 eq_refl eq_refl).
  - apply (proj1 (verifyWebhook_challenge Example.config
                    [("hub.verify_token", VStr "guess")])).
    right; right; reflexivity.
Defined.

Lemma verifyRequest_signature_witness :
  let headers : @props safe_integer := [("x-hub-signature", VStr "sha1=secret:{}")] in
  verifyRequest Example.hmac Example.config "{}" headers = Returns tt
  /\ verifyRequest Example.hmac Example.config "{ }" headers
     = Throws (_getUnauthorizedError "Couldn't validate the request signature.")
  /\ verifyRequest Example.hmac Example.open_config "{ }" headers = Returns tt.
Proof.
  intros headers.
  destruct (verifyRequest_signature Example.hmac Example.config "{}" headers)
    as [_ Hset].
  destruct (Hset "secret" eq_refl ltac:(discriminate)) as (_ & Hiff & Hflip).
  assert (Hok : verifyRequest Example.hmac Example.config "{}" headers
                = Returns tt).
  { apply Hiff. exists "sha1=secret:{}". split; reflexivity. }
  split; [exact Hok|]. split.
  - apply Hflip; [exact Hok | discriminate].
  - apply (proj1 (verifyRequest_signature Example.hmac Example.open_config
                    "{ }" headers)).
    reflexivity.
Defined.

(** C9 is not what the code does: a signature sent as [X-HUB-SIGNATURE] is
    there for a lookup that ignores case, yet [verifyRequest] does not see
    it and reports the header missing, although the digest is right. *)
Lemma signature_header_is_case_sensitive :
  let headers : @props safe_integer := [("X-HUB-SIGNATURE", VStr "sha1=secret:{}")] in
  spec_header_lookup "x-hub-signature" headers = VStr "sha1=secret:{}"
  /\ signature_header headers = VUndefined
  /\ signature_header headers <> spec_header_lookup "x-hub-signature" headers
  /\ verifyRequest Example.hmac Example.config "{}" headers
     = Throws (_getUnauthorizedError "Missing X-Hub-Signature")
  /\ verifyRequest Example.hmac Example.config "{}"
       [("X-Hub-Signature", VStr "sha1=secret:{}")]
     = Returns tt.
Proof.
  cbv zeta. repeat split; try reflexivity. discriminate.
Qed.

Lemma signature_header_spellings_witness :
  let headers : @props safe_integer := [("X-Hub-Signature", VStr "sha1=secret:{}")] in
  signature_header (("X-HUB-SIGNATURE", VStr "sha1=other") :: headers)
  = signature_header headers.
Proof.
  intros headers.
  apply (proj1 (proj2 (signature_header_spellings
                         Example.hmac Example.config headers)));
    discriminate.
Defined.


Lemma per_sender_dispatch_is_sequential_witness :
  run Example.config [Job 0; Job 1] (processEvent Example.two_senders)
  = Some Example.both_in_flight
  /\ (exists inflight,
        sequential (task_trace 0 (trace Example.both_in_flight)) inflight)
  /\ (exists to_come,
        calls_of Example.config (VStr "A")
                 [Example.item_of Example.text_of_A;
                  Example.item_of Example.second_of_A]
        = called (task_trace 0 (trace Example.both_in_flight)) ++ to_come)
  /\ exists st1 k st2,
       step Example.config (Settle 0 settle_ok) Example.both_in_flight
       = Some st1 /\
       run Example.config (repeat (Job 0) (S k)) st1 = Some st2 /\
       trace st2
       = trace Example.both_in_flight
         ++ [(0, Settled (Example.call_for Example.text_of_A (VStr "A"))
                         settle_ok);
             (0, Called (Example.call_for Example.second_of_A (VStr "A")))].
Proof.
  split; [reflexivity|].
  destruct (per_sender_dispatch_is_sequential
              Example.config Example.two_senders [Job 0; Job 1]
              Example.both_in_flight 0 (VStr "A")
              [Example.item_of Example.text_of_A;
               Example.item_of Example.second_of_A]
              eq_refl eq_refl eq_refl)
    as (_ & _ & Hseq & Hprefix & Hsettle & _).
  split; [exact Hseq|]. split; [exact Hprefix|].
  destruct (Hsettle
              (chain (Pending (Example.call_for Example.text_of_A (VStr "A")))
                     (VStr "A") [Example.item_of Example.second_of_A])
              (Example.call_for Example.text_of_A (VStr "A"))
              {| status := 200 |} eq_refl eq_refl)
    as (st1 & Hstep & Htrace & Hnext).
  destruct (Hnext (Example.call_for Example.second_of_A (VStr "A")) []
                  eq_refl)
    as (k & st2 & Hrun & Htrace2).
  exists st1, k, st2. split; [exact Hstep|]. split; [exact Hrun|].
  rewrite Htrace2, Htrace, <- app_assoc. reflexivity.
Defined.

(** C3 is not what the code does: with the calls of A and B both in
    flight, a failure of A's makes the call throw that one reason while B's
    promise is still pending; B's call settles afterwards, and the result of
    the call is what it was. *)
Lemma call_throws_before_all_settled :
  exists st st',
    run Example.config
        [Job 0; Job 1; Settle 0 (Throws Example.boom); Job 0; JoinReject 0]
        (processEvent Example.two_senders) = Some st
    /\ call st = Done (Throws Example.boom)
    /\ nth_error (process st) 1
       = Some (Pending (Example.call_for Example.text_of_B (VStr "B")))
    /\ reports_after_all_settled st = false
    /\ run Example.config [Settle 1 settle_ok] st = Some st'
    /\ forallb is_settled (process st') = true
    /\ call st' = Done (Throws Example.boom).
Proof.
  do 2 eexists. split; [reflexivity|]. repeat split.
Qed.

Lemma processor_failure_scope_witness :
  nth_error (process Example.both_in_flight) 0
  = Some (chain (Pending (Example.call_for Example.text_of_A (VStr "A")))
                (VStr "A") [Example.item_of Example.second_of_A])
  /\ exists st1 st2,
       step Example.config (Settle 0 (Throws Example.boom))
            Example.both_in_flight = Some st1
       /\ run Example.config [Job 0; JoinReject 0] st1 = Some st2
       /\ call st2 = Done (Throws Example.boom)
       /\ nth_error (process st2) 1
          = nth_error (process Example.both_in_flight) 1.
Proof.
  split; [reflexivity|].
  destruct (processor_failure_scope
              Example.config Example.both_in_flight 0
              (Example.call_for Example.text_of_A (VStr "A")) (VStr "A")
              [Example.item_of Example.second_of_A] Example.boom eq_refl)
    as (st1 & Hstep & _ & _ & _ & _ & Hjoin).
  destruct (Hjoin _ eq_refl) as (st2 & Hrun & Hcall & Hothers & _).
  exists st1, st2. split; [exact Hstep|]. split; [exact Hrun|].
  split; [exact Hcall|]. apply Hothers. discriminate.
Defined.

Lemma take_thread_control_rule_witness :
  processMessage Example.config Example.take_from_self
                 (VStr "A") (VStr "page-1")
  = Resolved {| status := 201 |}
  /\ processMessage Example.config Example.take_from_other
                    (VStr "A") (VStr "page-1")
     = Dispatched
         {| call_event :=
              PostBack (VStr "A") (VStr "/take")
                       (VObj 10 [("previous_owner_app_id", VNum (int 456))])
                       VNull VNull (VNum (int 14));
            call_pageId := VStr "page-1";
            call_messageSender :=
              {| sender_options := Example.config;
                 sender_senderId := VStr "A";
                 sender_message := Example.take_from_other |} |}.
Proof.
  split.
  - apply (proj1 (take_thread_control_rule
                    (NumOps := safe_integer_number)
                    Example.config Example.take_from_self "123" "123"
                    eq_refl eq_refl eq_refl)).
    reflexivity.
  - apply (proj2 (take_thread_control_rule
                    (NumOps := safe_integer_number)
                    Example.config Example.take_from_other "456" "123"
                    eq_refl eq_refl eq_refl));
      reflexivity.
Defined.

Lemma processEvent_not_page_witness :
  strict_eq (object Example.user_body) (VStr "page") = false
  /\ processEvent Example.user_body
     = {| process := []; call := Done (Returns []); trace := [] |}.
Proof.
  split; [reflexivity|].
  apply (proj1 (processEvent_not_page Example.config Example.user_body
                  eq_refl)).
Defined.

Lemma unconfigured_thread_control_is_consumed_witness :
  processMessage Example.config Example.pass_to_us (VStr "A") (VStr "page-1")
  = Resolved {| status := 201 |}
  /\ processMessage Example.config Example.request_of_us
                    (VStr "B") (VStr "page-1")
     = Resolved {| status := 201 |}
  /\ snd (grouping (Example.page_of [Example.pass_to_us])) = [].
Proof.
  split; [|split].
  - apply (proj1 (unconfigured_thread_control_is_consumed
                    Example.config Example.pass_to_us eq_refl
                    (or_introl (conj eq_refl eq_refl)))).
  - apply (proj1 (unconfigured_thread_control_is_consumed
                    Example.config Example.request_of_us eq_refl
                    (or_intror (conj eq_refl (conj eq_refl eq_refl))))).
  - reflexivity.
Defined.

Lemma discarded_event_resolves_witness :
  event_of Example.config Example.take_from_self (VStr "A") = Returns None
  /\ processMessage Example.config Example.take_from_self
                    (VStr "A") (VStr "page-1")
     = Resolved {| status := 201 |}
  /\ exists st',
       run Example.config [Job 0; Job 0]
           (processEvent (Example.page_of [Example.take_from_self;
                                           Example.second_of_A]))
       = Some st' /\
       trace st'
       = [(0, Called (Example.call_for Example.second_of_A (VStr "A")))].
Proof.
  assert (Hnone : event_of Example.config Example.take_from_self (VStr "A")
                  = Returns None) by reflexivity.
  destruct (discarded_event_resolves
              Example.config Example.take_from_self
              (VStr "A") (VStr "page-1") Hnone)
    as (_ & Hresolved & _ & _ & _ & Hnext & _).
  split; [exact Hnone|]. split; [exact Hresolved|].
  exact (Hnext (processEvent (Example.page_of [Example.take_from_self;
                                               Example.second_of_A]))
               0 None Example.second_of_A (VStr "page-1") []
               (Incoming Example.second_of_A) eq_refl eq_refl).
Defined.

(** * Further properties of the gateway *)

Section FurtherProperties.

Context {num : Type} {NumOps : JsNumber num}.
Variable hmac_sha1_hex : string -> string -> string.
Variable _options : @options num.

(** ** What the result of the call says about the queues *)

Lemma settled_cannot_step a (p : @promise num) :
  is_settled p = true -> step_promise _options a p = None.
Proof. destruct p; simpl; intros Hp; try discriminate; reflexivity. Qed.

Lemma forallb_nth {A : Type} (f : A -> bool) (l : list A) i x :
  forallb f l = true -> nth_error l i = Some x -> f x = true.
Proof.
  intros Hall Hnth. rewrite forallb_forall in Hall.
  apply Hall. eapply nth_error_In. eassumption.
Qed.

Lemma is_fulfilled_settled (p : @promise num) :
  is_fulfilled p = true -> is_settled p = true.
Proof. destruct p; simpl; auto. Qed.

Lemma step_keeps_call_invariant otherEvents t (st st' : @gateway_state num) :
  call_invariant otherEvents st ->
  step _options t st = Some st' ->
  call_invariant otherEvents st'.
Proof.
  assert (Hadvance : forall i a,
    call_invariant otherEvents st ->
    advance _options i a st = Some st' ->
    call_invariant otherEvents st').
  { intros i a Hinv Hadv.
    destruct (advance_inv _ _ _ _ _ Hadv) as (p & p' & obs & Hp & Hstep & ->).
    unfold call_invariant in *. simpl.
    destruct (call st) as [others | [others | e]]; [assumption| |].
    - destruct Hinv as [_ Hall]. exfalso.
      pose proof (forallb_nth _ _ _ _ Hall Hp) as Hful.
      rewrite (settled_cannot_step a p (is_fulfilled_settled p Hful)) in Hstep.
      discriminate.
    - destruct Hinv as [j Hj]. exists j.
      destruct (Nat.eq_dec j i) as [-> | Hneq].
      + rewrite Hp in Hj. inversion Hj; subst p. discriminate.
      + rewrite nth_error_replace_nth_other by assumption. assumption. }
  intros Hinv. destruct t as [i | i r | | i]; simpl; eauto.
  - unfold call_invariant in *.
    destruct (call st) as [others|]; [|discriminate].
    destruct (forallb is_fulfilled (process st)) eqn:Hall; [|discriminate].
    intros Heq. inversion Heq. simpl. auto.
  - unfold call_invariant in *.
    destruct (call st) as [others|]; [|discriminate].
    destruct (nth_error (process st) i) as [[ | e | | ]|] eqn:Hi;
      try discriminate.
    intros Heq. inversion Heq. simpl. eauto.
Qed.

Lemma reachable_call_invariant (body : @webhook_body num) schedule st :
  strict_eq (object body) (VStr "page") = true ->
  run _options schedule (processEvent body) = Some st ->
  call_invariant (snd (grouping body)) st.
Proof.
  intros Hpage.
  assert (Hinit : call_invariant (snd (grouping body)) (processEvent body)).
  { rewrite processEvent_page by assumption. reflexivity. }
  revert Hinit. generalize (processEvent body). clear Hpage.
  induction schedule as [|t schedule IH]; intros s Hinv; simpl.
  - intros Heq. inversion Heq; subst. assumption.
  - destruct (step _options t s) as [s1|] eqn:Hstep; [|discriminate].
    apply IH. eapply step_keeps_call_invariant; eauto.
Qed.

(** X1: When [processEvent] has returned, it has returned [otherEvents], every
    queue has run to its end, and the processor has been called, in queue
    order and one call at a time, for every event of every queue that
    [processMessage] does not discard, with no call left open. *)
Theorem return_means_every_queue_done
  (body : @webhook_body num) schedule st others :
  strict_eq (object body) (VStr "page") = true ->
  run _options schedule (processEvent body) = Some st ->
  call st = Done (Returns others) ->
  others = snd (grouping body)
  /\ forallb is_fulfilled (process st) = true
  /\ forall i senderId events,
       nth_error (entries (fst (grouping body))) i = Some (senderId, events) ->
       sequential (task_trace i (trace st)) None /\
       called (task_trace i (trace st)) = calls_of _options senderId events.
Proof.
  intros Hpage Hrun Hcall.
  pose proof (reachable_call_invariant body schedule st Hpage Hrun) as Hinv.
  unfold call_invariant in Hinv. rewrite Hcall in Hinv.
  destruct Hinv as [Hothers Hall].
  split; [assumption|]. split; [assumption|].
  intros i senderId events Hq.
  destruct (reachable_invariant _options body schedule st Hpage Hrun)
    as (_ & _ & Hqueues).
  destruct (Hqueues _ _ _ Hq)
    as (p & Hp & done & rest & base & Hevents & Hchain & Hbase).
  pose proof (forallb_nth _ _ _ _ Hall Hp) as Hful.
  destruct p as [v| | |]; try discriminate.
  symmetry in Hchain. apply chain_fulfilled in Hchain.
  destruct Hchain as [-> ->]. rewrite app_nil_r in Hevents. subst done.
  tauto.
Qed.

(** ** Where a thrown reason comes from *)





(** ** What the processor is given *)

(** X3: Every call the processor receives is for a processable event of the
    envelope: it carries that event's page id, a sender adapter built for
    that event with the configured options and the key of the event's
    queue, which is the event's sender id; an event that is passed through
    is never behind a call. *)
Theorem processor_only_sees_processable_events
  (body : @webhook_body num) schedule st i c :
  run _options schedule (processEvent body) = Some st ->
  In (i, Called c) (trace st) ->
  (exists x,
     In x (all_items body)
     /\ processable (message x) = true
     /\ sender_message (call_messageSender c) = message x
     /\ call_pageId c = pageId x
     /\ sender_options (call_messageSender c) = _options
     /\ same_value_zero (sender_senderId (call_messageSender c))
                        (senderIdOf (message x)) = true
     /\ event_of _options (message x) (sender_senderId (call_messageSender c))
        = Returns (Some (call_event c)))
  /\ forall y, In y (snd (grouping body)) ->
               sender_message (call_messageSender c) <> message y.
Proof.
  intros Hrun Hin.
  destruct (called_origin _options body schedule st i c Hrun Hin)
    as (senderId & events & x & Hq & Hx & Hpm).
  apply nth_error_In in Hq.
  destruct (grouped_queues _ _ _ (grouping_grouped body) _ _ Hq)
    as [_ Hfilter].
  rewrite Hfilter in Hx. apply filter_In in Hx. destruct Hx as [Hx Hqueue].
  unfold in_queue in Hqueue. apply Bool.andb_true_iff in Hqueue.
  destruct Hqueue as [Hproc Hsame].
  unfold processMessage in Hpm.
  destruct (event_of _options (message x) senderId) as [[ev|]|e] eqn:Hev;
    try discriminate.
  inversion Hpm; subst c. simpl. split.
  - exists x. repeat split; assumption.
  - intros y Hy Hmsg.
    pose proof (others_not_processable body y Hy) as Hnot.
    rewrite <- Hmsg in Hnot. congruence.
Qed.

(** ** The keys of the queues *)

Lemma push_first_in_any (m : @js_map num) k0 x k q' :
  In (k, q') (push_first m k0 x) ->
  exists q, In (k, q) m /\ (q' = q \/ q' = q ++ [x]).
Proof.
  induction m as [|[k1 q1] rest IH]; simpl; [tauto|].
  destruct (same_value_zero k1 k0); simpl.
  - intros [Heq | Hin].
    + inversion Heq; subst. eauto.
    + eauto.
  - intros [Heq | Hin].
    + inversion Heq; subst. eauto.
    + destruct (IH Hin) as (q & Hq & Hq'). eauto.
Qed.

Lemma keyed_by_first_step (m : @js_map num) o x :
  keyed_by_first m -> keyed_by_first (fst (group_item (m, o) x)).
Proof.
  intros Hkeyed. rewrite group_item_cases.
  destruct (processable (message x)); [|assumption]. simpl.
  destruct (map_has m (senderIdOf (message x))).
  - intros k q' Hin.
    destruct (push_first_in_any _ _ _ _ _ Hin) as (q & Hq & Hq').
    destruct (Hkeyed _ _ Hq) as (y & rest & -> & Hk).
    destruct Hq' as [-> | ->]; eauto.
    exists y, (rest ++ [x]). auto.
  - intros k q Hin. apply in_app_or in Hin.
    destruct Hin as [Hin | [Heq | []]]; [eauto|].
    inversion Heq; subst. eauto.
Qed.

Lemma keyed_by_first_fold (l : list (@item num)) m o :
  keyed_by_first m -> keyed_by_first (fst (fold_left group_item l (m, o))).
Proof.
  revert m o. induction l as [|x l IH]; intros m o Hkeyed; cbn [fold_left].
  - assumption.
  - pose proof (keyed_by_first_step m o x Hkeyed) as Hstep.
    destruct (group_item (m, o) x) as [m1 o1]. apply IH. assumption.
Qed.

Lemma senderIdOf_null_or_truthy (msg : @props num) :
  senderIdOf msg = VNull \/ truthy (senderIdOf msg) = true.
Proof.
  unfold senderIdOf, js_or, js_and.
  destruct (truthy (lookup "sender" msg)) eqn:Hsender.
  - destruct (truthy (get_prop (lookup "sender" msg) "id")) eqn:Hid; auto.
  - rewrite Hsender. auto.
Qed.

(** X5: Every queue is keyed by the sender id of its first event, an event of
    the envelope, and so by [null] or by a truthy value: never by
    [undefined], [false], [0] or the empty string. *)
Theorem queue_key_is_first_sender (body : @webhook_body num) k q :
  In (k, q) (entries (fst (grouping body))) ->
  exists x rest,
    q = x :: rest
    /\ In x (all_items body)
    /\ processable (message x) = true
    /\ k = senderIdOf (message x)
    /\ (k = VNull \/ truthy k = true).
Proof.
  intros Hin.
  assert (Hkeyed : keyed_by_first (fst (grouping body))).
  { rewrite grouping_all_items. apply keyed_by_first_fold.
    intros k' q' []. }
  destruct (Hkeyed _ _ Hin) as (x & rest & Hq & Hk).
  destruct (grouped_queues _ _ _ (grouping_grouped body) _ _ Hin)
    as [_ Hfilter].
  assert (Hx : In x (filter (in_queue k) (all_items body))).
  { rewrite <- Hfilter, Hq. left. reflexivity. }
  apply filter_In in Hx. destruct Hx as [Hx Hqueue].
  unfold in_queue in Hqueue. apply Bool.andb_true_iff in Hqueue.
  exists x, rest. split; [assumption|]. split; [assumption|].
  split; [tauto|]. split; [assumption|].
  rewrite Hk. apply senderIdOf_null_or_truthy.
Qed.

Lemma same_value_zero_null (k : @value num) :
  same_value_zero k VNull = true -> k = VNull.
Proof. destruct k; simpl; try discriminate. reflexivity. Qed.

(** X6: A processable event that names no sender, or a sender without id, or
    with a falsy id, is not refused: it is queued under [null], with every
    other such event of the envelope. *)
Theorem senderless_events_share_the_null_queue (body : @webhook_body num) x :
  In x (all_items body) ->
  processable (message x) = true ->
  truthy (lookup "sender" (message x)) = false \/
  truthy (get_prop (lookup "sender" (message x)) "id") = false ->
  exists q,
    In (VNull, q) (entries (fst (grouping body)))
    /\ In x q
    /\ q = filter (in_queue VNull) (all_items body).
Proof.
  intros Hx Hproc Hsender.
  assert (Hnull : senderIdOf (message x) = VNull).
  { unfold senderIdOf, js_or, js_and.
    destruct (truthy (lookup "sender" (message x))) eqn:Hs.
    - destruct Hsender as [Hs' | Hid]; [discriminate|]. rewrite Hid.
      reflexivity.
    - rewrite Hs. reflexivity. }
  destruct (grouping_grouped body) as [_ Hqueues _ Hcovers _].
  destruct (map_has_true_in _ _ (Hcovers x Hx Hproc)) as (k & q & Hin & Hsame).
  rewrite Hnull in Hsame. apply same_value_zero_null in Hsame. subst k.
  exists q. split; [assumption|].
  destruct (Hqueues _ _ Hin) as [_ Hfilter].
  split; [|assumption]. rewrite Hfilter. apply filter_In.
  split; [assumption|]. unfold in_queue. rewrite Hproc, Hnull. reflexivity.
Qed.

(** ** The shape of the signature header *)

Lemma split_without_separator sep s :
  has_char sep s = false -> split sep s = [s].
Proof.
  induction s as [|c s IH]; simpl; [reflexivity|].
  intros Hno. apply Bool.orb_false_iff in Hno. destruct Hno as [Hc Hs].
  rewrite Hc, (IH Hs). reflexivity.
Qed.

Lemma split_at_separator sep a b :
  has_char sep a = false ->
  split sep (a ++ String sep b) = a :: split sep b.
Proof.
  induction a as [|c a IH]; simpl.
  - intros _. rewrite Ascii.eqb_refl. reflexivity.
  - intros Hno. apply Bool.orb_false_iff in Hno. destruct Hno as [Hc Ha].
    rewrite Hc, (IH Ha). reflexivity.
Qed.

Lemma append_separator_nonempty a c b : (a ++ String c b)%string <> "".
Proof. destruct a; discriminate. Qed.

(** X7: [verifyRequest] reads the second of the fields that [=] separates, and
    nothing else of the header: with the right digest there, any label
    before the first [=] is accepted ([sha1] is not asked for), and so is
    anything after a second [=]; a header value without [=] is refused
    even when it is the right digest. *)
Theorem signature_is_the_second_field
  (body secret : string) (headers : @props num) :
  appSecret _options = VStr secret -> secret <> "" ->
  has_char "="%char (hmac_sha1_hex secret body) = false ->
  (forall label,
     has_char "="%char label = false ->
     signature_header headers
     = VStr (label ++ String "="%char (hmac_sha1_hex secret body)) ->
     verifyRequest hmac_sha1_hex _options body headers = Returns tt)
  /\ (forall label junk,
        has_char "="%char label = false ->
        signature_header headers
        = VStr (label ++ String "="%char
                  (hmac_sha1_hex secret body ++ String "="%char junk)) ->
        verifyRequest hmac_sha1_hex _options body headers = Returns tt)
  /\ (forall sig,
        has_char "="%char sig = false -> sig <> "" ->
        signature_header headers = VStr sig ->
        verifyRequest hmac_sha1_hex _options body headers
        = Throws (_getUnauthorizedError
                    "Couldn't validate the request signature.")).
Proof.
  intros Hsecret Hnonempty Hdigest.
  assert (Hset : truthy (appSecret _options) = true).
  { rewrite Hsecret. simpl. destruct secret; [congruence | reflexivity]. }
  assert (Htruthy : forall s : string, s <> "" -> truthy (@VStr num s) = true).
  { intros s Hs. simpl. apply Bool.negb_true_iff. apply String.eqb_neq.
    assumption. }
  split; [|split].
  - intros label Hlabel Hheader.
    unfold verifyRequest. rewrite Hset, Hheader, Hsecret.
    rewrite Htruthy by apply append_separator_nonempty.
    cbn [negb]. unfold signatureHash.
    rewrite split_at_separator, split_without_separator by assumption.
    cbn [nth_error]. rewrite String.eqb_refl. reflexivity.
  - intros label junk Hlabel Hheader.
    unfold verifyRequest. rewrite Hset, Hheader, Hsecret.
    rewrite Htruthy by apply append_separator_nonempty.
    cbn [negb]. unfold signatureHash.
    rewrite !split_at_separator by assumption.
    cbn [nth_error]. rewrite String.eqb_refl. reflexivity.
  - intros sig Hsig Hne Hheader.
    unfold verifyRequest. rewrite Hset, Hheader, Hsecret.
    rewrite Htruthy by assumption.
    cbn [negb]. unfold signatureHash.
    rewrite split_without_separator by assumption. reflexivity.
Qed.

(** ** The call can always settle *)

Lemma reachable_queues_under_way (body : @webhook_body num) schedule st :
  run _options schedule (processEvent body) = Some st ->
  queues_under_way st.
Proof.
  intros Hrun i p Hp.
  destruct (strict_eq (object body) (VStr "page")) eqn:Hpage.
  - destruct (reachable_invariant _options body schedule st Hpage Hrun)
      as (Hlength & _ & Hqueues).
    destruct (nth_error (entries (fst (grouping body))) i)
      as [[senderId events]|] eqn:Hq.
    + destruct (Hqueues _ _ _ Hq)
        as (p' & Hp' & done & rest & base & _ & Hchain & Hbase).
      rewrite Hp in Hp'. inversion Hp' as [Hsame].
      exists base, senderId, rest. split; [congruence|].
      destruct base; tauto.
    + apply nth_error_None in Hq.
      assert (i < List.length (process st))
        by (apply nth_error_Some; congruence).
      lia.
  - destruct (not_page_runs _options body schedule st Hpage Hrun) as [_ ->].
    unfold processEvent in Hp. rewrite Hpage in Hp. destruct i; discriminate.
Qed.

(** The first [n] queues brought to an end, the others left as they are. *)
Lemma settle_first n :
  forall st : @gateway_state num,
    queues_under_way st ->
    n <= List.length (process st) ->
    exists schedule st',
      run _options schedule st = Some st' /\
      call st' = call st /\
      (forall k, k < n ->
         exists p', nth_error (process st') k = Some p' /\
                    is_settled p' = true) /\
      (forall k, n <= k ->
         nth_error (process st') k = nth_error (process st) k).
Proof.
  induction n as [|n IH]; intros st Hway Hn.
  - exists [], st. repeat split; auto. intros k Hk. lia.
  - destruct (IH st Hway) as (schedule & st1 & Hrun & Hcall & Hdone & Hrest);
      [lia|].
    destruct (nth_error (process st) n) as [p|] eqn:Hp.
    2: { apply nth_error_None in Hp. lia. }
    destruct (Hway _ _ Hp) as (base & senderId & rest & -> & Hbase).
    destruct (chain_can_settle _options rest st1 n base senderId)
      as (schedule' & st2 & Hrun' & Hsettled & Hcall' & Hothers).
    { rewrite Hrest by lia. assumption. }
    { assumption. }
    exists (schedule ++ schedule'), st2.
    split; [rewrite run_app, Hrun; assumption|].
    split; [congruence|]. split.
    + intros k Hk. destruct (Nat.eq_dec k n) as [-> | Hneq]; [assumption|].
      rewrite Hothers by assumption. apply Hdone. lia.
    + intros k Hk. rewrite Hothers by lia. apply Hrest. lia.
Qed.

Lemma some_rejected (l : list (@promise num)) :
  (forall p, In p l -> is_settled p = true) ->
  forallb is_fulfilled l = false ->
  exists i e, nth_error l i = Some (Rejected e).
Proof.
  induction l as [|p l IH]; simpl; [discriminate|].
  intros Hsettled Hnot.
  destruct p as [v | e | c | q s x].
  - simpl in Hnot. destruct IH as (i & e & Hi); auto.
    exists (S i), e. assumption.
  - exists 0, e. reflexivity.
  - specialize (Hsettled _ (or_introl eq_refl)). discriminate.
  - specialize (Hsettled _ (or_introl eq_refl)). discriminate.
Qed.

(** X8: From wherever a call of [processEvent] stands, the event loop can bring
    every queue to an end and the call to a result: nothing in the gateway
    can leave the call pending once the processor settles its calls. *)
Theorem call_can_always_settle (body : @webhook_body num) schedule st :
  run _options schedule (processEvent body) = Some st ->
  exists more st',
    run _options more st = Some st'
    /\ (exists r, call st' = Done r)
    /\ forallb is_settled (process st') = true.
Proof.
  intros Hrun.
  pose proof (reachable_queues_under_way body schedule st Hrun) as Hway.
  destruct (settle_first (List.length (process st)) st Hway (le_n _))
    as (more & st1 & Hrun1 & Hcall1 & Hdone & Hrest).
  assert (Hsettled : forall p, In p (process st1) -> is_settled p = true).
  { intros p Hin. apply In_nth_error in Hin. destruct Hin as [k Hk].
    destruct (Nat.lt_ge_cases k (List.length (process st))) as [Hlt | Hge].
    - destruct (Hdone k Hlt) as (p' & Hp' & Hs). congruence.
    - rewrite Hrest in Hk by assumption.
      apply nth_error_None in Hge. congruence. }
  assert (Hall : forallb is_settled (process st1) = true)
    by (apply forallb_forall; assumption).
  destruct (call st1) as [others | r] eqn:Hc.
  - destruct (forallb is_fulfilled (process st1)) eqn:Hful.
    + eexists (more ++ [JoinFulfil]), _. rewrite run_app, Hrun1.
      cbn [run step]. rewrite Hc, Hful.
      split; [reflexivity|]. simpl. eauto.
    + destruct (some_rejected _ Hsettled Hful) as (i & e & Hi).
      eexists (more ++ [JoinReject i]), _. rewrite run_app, Hrun1.
      cbn [run step]. rewrite Hc, Hi.
      split; [reflexivity|]. simpl. eauto.
  - exists more, st1. eauto.
Qed.

(** ** After the return *)

(** X9: Once [processEvent] has returned, the event loop has nothing left to do
    for it: no job of a queue, no settlement, no join is enabled, so the
    processor is not called again on behalf of this envelope. *)
Theorem returned_call_is_quiescent
  (body : @webhook_body num) schedule st others t :
  run _options schedule (processEvent body) = Some st ->
  call st = Done (Returns others) ->
  step _options t st = None.
Proof.
  intros Hrun Hcall.
  assert (Hall : forallb is_fulfilled (process st) = true).
  { destruct (strict_eq (object body) (VStr "page")) eqn:Hpage.
    - pose proof (reachable_call_invariant body schedule st Hpage Hrun)
        as Hinv.
      unfold call_invariant in Hinv. rewrite Hcall in Hinv. tauto.
    - destruct (not_page_runs _options body schedule st Hpage Hrun)
        as [_ ->].
      unfold processEvent. rewrite Hpage. reflexivity. }
  assert (Hadvance : forall i a, advance _options i a st = None).
  { intros i a. unfold advance.
    destruct (nth_error (process st) i) as [p|] eqn:Hp; [|reflexivity].
    pose proof (forallb_nth _ _ _ _ Hall Hp) as Hful.
    rewrite (settled_cannot_step a p (is_fulfilled_settled p Hful)).
    reflexivity. }
  destruct t as [i | i r | | i]; simpl; auto; rewrite Hcall; reflexivity.
Qed.

(** ** The events the processor is called with *)

(** X10: What the processor is handed is the incoming message itself, and then
    one without thread-control payload, or a postback built from a
    thread-control payload and the action configured for it, with the key
    of the queue as sender, no referral, and the timestamp of the message.
    A thread-control event never reaches the processor as it came, and no
    postback carries an action that is not configured. *)
Theorem processor_events_have_two_shapes
  (body : @webhook_body num) schedule st i c :
  run _options schedule (processEvent body) = Some st ->
  In (i, Called c) (trace st) ->
  let msg := sender_message (call_messageSender c) in
  match call_event c with
  | Incoming m =>
      m = msg
      /\ truthy (lookup "take_thread_control" msg) = false
      /\ truthy (lookup "pass_thread_control" msg) = false
      /\ truthy (lookup "request_thread_control" msg) = false
  | PostBack senderId action data refAction refData timestamp =>
      senderId = sender_senderId (call_messageSender c)
      /\ truthy action = true
      /\ truthy data = true
      /\ refAction = VNull /\ refData = VNull
      /\ timestamp = lookup "timestamp" msg
      /\ ((action = takeThreadAction _options /\
           data = lookup "take_thread_control" msg)
          \/ (action = passThreadAction _options /\
              data = lookup "pass_thread_control" msg)
          \/ (action = requestThreadAction _options /\
              data = lookup "request_thread_control" msg))
  end.
Proof.
  intros Hrun Hin.
  destruct (called_origin _options body schedule st i c Hrun Hin)
    as (senderId & events & x & _ & _ & Hpm).
  unfold processMessage in Hpm.
  destruct (event_of _options (message x) senderId) as [[ev|]|e] eqn:Hev;
    try discriminate.
  inversion Hpm; subst c. cbn [call_event call_messageSender sender_message
                                sender_senderId]. cbv zeta.
  unfold event_of in Hev.
  destruct (truthy (lookup "take_thread_control" (message x))) eqn:Htake.
  - destruct (to_string (get_prop _ _)) as [previous_owner|]; [|discriminate].
    destruct (to_string (appId _options)) as [own|]; [|discriminate].
    destruct (truthy (takeThreadAction _options)) eqn:Haction;
      [|discriminate].
    destruct (negb _); [|discriminate].
    inversion Hev; subst ev. repeat split; auto.
  - destruct (truthy (lookup "pass_thread_control" (message x))) eqn:Hpass.
    + destruct (truthy (passThreadAction _options)) eqn:Haction;
        [|discriminate].
      inversion Hev; subst ev. repeat split; auto.
    + destruct (truthy (lookup "request_thread_control" (message x)))
        eqn:Hrequest.
      * destruct (truthy (requestThreadAction _options)) eqn:Haction;
          [|discriminate].
        inversion Hev; subst ev. repeat split; auto.
      * inversion Hev; subst ev. auto.
Qed.

(** ** When the template literals throw *)

(** X18: A [take_thread_control] event whose previous owner does not print, or
    met with an [appId] that does not print, makes [processMessage] throw a
    [TypeError], whatever [takeThreadAction] is and before the processor is
    called.  The queue's promise rejects on the job that reaches the event,
    the events behind it are never dispatched, and the call throws the
    [TypeError] once the rejection has passed up the chain, with nothing
    more observed; the processor is never called for the event, and the
    event is not passed through. *)
Theorem unprintable_take_thread_control_throws (msg : @props num) :
  truthy (lookup "take_thread_control" msg) = true ->
  to_string (get_prop (lookup "take_thread_control" msg)
                      "previous_owner_app_id") = None
  \/ to_string (appId _options) = None ->
  (forall senderId pageId,
     processMessage _options msg senderId pageId = Threw TypeError)
  /\ (forall (st : @gateway_state num) i v senderId pageId rest otherEvents,
        nth_error (process st) i
        = Some (chain (Fulfilled v) senderId
                      ({| message := msg; pageId := pageId |} :: rest)) ->
        call st = Awaiting otherEvents ->
        exists st',
          run _options
              (repeat (Job i) (S (List.length rest)) ++ [JoinReject i]) st
          = Some st'
          /\ call st' = Done (Throws TypeError)
          /\ nth_error (process st') i = Some (Rejected TypeError)
          /\ trace st' = trace st)
  /\ (forall body schedule st i c,
        run _options schedule (processEvent body) = Some st ->
        In (i, Called c) (trace st) ->
        sender_message (call_messageSender c) <> msg)
  /\ (forall body x, In x (snd (grouping body)) -> message x <> msg).
Proof.
  intros Htake Hprint.
  assert (Hunprintable : printable _options msg = false).
  { unfold printable. rewrite Htake.
    destruct Hprint as [-> | ->]; [reflexivity|].
    destruct (to_string _); reflexivity. }
  assert (Hthrows : forall senderId pageId,
            processMessage _options msg senderId pageId = Threw TypeError).
  { intros senderId pageId. apply processMessage_unprintable. assumption. }
  split; [exact Hthrows|]. split; [|split].
  - intros st i v senderId pageId rest otherEvents Hp Hcall.
    pose proof (step_chain_fulfilled _options RunJob v senderId
                  {| message := msg; pageId := pageId |} rest) as Hjob.
    cbn [message] in Hjob. rewrite Hthrows in Hjob.
    pose proof (advance_eq _options _ _ _ _ _ _ Hp Hjob) as Hadv.
    set (st1 := {| process := _ |}) in Hadv.
    destruct (rejection_propagates_process _options rest st1 i TypeError
                senderId)
      as (st2 & Hrun & Hproc & Hcall2 & Htrace).
    { simpl. eapply nth_error_replace_nth_same; eauto. }
    rewrite run_app. cbn [repeat run step]. rewrite Hadv, Hrun.
    assert (Hrejected : nth_error (process st2) i = Some (Rejected TypeError)).
    { rewrite Hproc. eapply nth_error_replace_nth_same.
      simpl. eapply nth_error_replace_nth_same; eauto. }
    cbn [run step]. rewrite Hcall2. unfold st1 at 1. cbn [call].
    rewrite Hcall, Hrejected.
    eexists. split; [reflexivity|]. cbn [call process trace].
    split; [reflexivity|]. split; [assumption|].
    rewrite Htrace. simpl. apply app_nil_r.
  - intros body schedule st i c.
    apply (unhanded_never_called _options body schedule st).
    intros senderId event Hevent.
    pose proof (Hthrows senderId VNull) as Hthrew.
    unfold processMessage in Hthrew. rewrite Hevent in Hthrew. discriminate.
  - intros body x Hin Hx.
    apply (not_passed_through body x); [|assumption]. rewrite Hx.
    apply (processable_kind "take_thread_control"); [|assumption].
    simpl. auto 10.
Qed.

End FurtherProperties.

(** * Properties of the profile settings *)

Section SettingsProperties.

Context {num : Type} {NumOps : JsNumber num}.
Variable token : @value num.
Variable respond : @library -> @request_options num -> @outcome num (@value num).
Variable deepEqual : @value num -> @value num -> bool.
Variable is_zero : num -> bool.

(** ** The three requests *)

Lemma _post_cases (data : @props num) :
  _post token respond data
  = match respond ThisRequest (post_options token data) with
    | Returns v => (Returns v, [Request ThisRequest (post_options token data)])
    | Throws e =>
        (Returns VUndefined,
         [Request ThisRequest (post_options token data);
          LogError "Bot settings failed" e])
    end.
Proof.
  unfold _post, catch, bind, request_with, log_error, ret, post_options.
  destruct (respond ThisRequest _); reflexivity.
Qed.

Lemma _delete_cases (data : @props num) :
  _delete token respond data
  = match respond ModuleRequest (delete_options token data) with
    | Returns v =>
        (Returns v, [Request ModuleRequest (delete_options token data)])
    | Throws e =>
        (Returns VUndefined,
         [Request ModuleRequest (delete_options token data);
          LogError "Bot settings failed" e])
    end.
Proof.
  unfold _delete, catch, bind, request_with, log_error, ret, delete_options.
  destruct (respond ModuleRequest _); reflexivity.
Qed.

Lemma _get_menu_cases :
  _get token respond (Some ["persistent_menu"])
  = match respond ModuleRequest (get_menu_options token) with
    | Returns v => (Returns v, [Request ModuleRequest (get_menu_options token)])
    | Throws e =>
        (Throws e,
         [Request ModuleRequest (get_menu_options token);
          LogError "Bot settings failed" e])
    end.
Proof.
  unfold _get, catch, bind, request_with, log_error, ret, get_menu_options.
  simpl. destruct (respond ModuleRequest _); reflexivity.
Qed.

(** [menu_done], case by case. *)
Lemma menu_done_cases (newMenu : @value num) :
  menu_done token respond deepEqual is_zero newMenu
  = match respond ModuleRequest (get_menu_options token) with
    | Throws e =>
        (Returns VUndefined,
         [Request ModuleRequest (get_menu_options token);
          LogError "Bot settings failed" e;
          LogError "Bot settings failed" e])
    | Returns result =>
        match updateMenu deepEqual is_zero newMenu result with
        | Throws e =>
            (Returns VUndefined,
             [Request ModuleRequest (get_menu_options token);
              LogError "Bot settings failed" e])
        | Returns false =>
            (Returns VUndefined,
             [Request ModuleRequest (get_menu_options token)])
        | Returns true =>
            let (r, fx) :=
              _post token respond [("persistent_menu", newMenu)] in
            (r, Request ModuleRequest (get_menu_options token) :: fx)
        end
    end.
Proof.
  unfold menu_done. rewrite _get_menu_cases.
  destruct (respond ModuleRequest (get_menu_options token)) as [result|e];
    cbv beta iota delta [then_ catch bind ret log_error].
  - destruct (updateMenu deepEqual is_zero newMenu result) as [[|]|e].
    + rewrite _post_cases.
      destruct (respond ThisRequest _); reflexivity.
    + reflexivity.
    + reflexivity.
  - reflexivity.
Qed.

(** ** Failures *)

Lemma strip_all_throws (doms : list (@value num)) e :
  strip_all doms = Throws e -> e = TypeError.
Proof.
  induction doms as [|v doms IH]; simpl; [discriminate|].
  destruct v; try (intros Heq; inversion Heq; reflexivity).
  destruct (strip_all doms); [discriminate|].
  intros Heq. inversion Heq; subst. auto.
Qed.

Ltac failed_request :=
  let via := fresh "via" in
  let o := fresh "o" in
  let e := fresh "e" in
  let Hin := fresh "Hin" in
  let Hfail := fresh "Hfail" in
  intros via o e Hin Hfail; simpl in Hin;
  repeat (destruct Hin as [Hin | Hin]);
  try discriminate Hin; try contradiction;
  inversion Hin; subst; simpl;
  solve [ exfalso; congruence
        | left; congruence
        | right; left; congruence
        | right; right; left; congruence ].

(** X11: No method lets a failed request reach its caller: the failure is logged
    and the promise fulfils all the same.  The one thing a method throws is
    the [TypeError] of a [whitelistDomain] argument that is not a string or
    an array of strings, before any request. *)
Theorem request_failures_are_logged_not_thrown (c : @settings_call num) :
  let result := perform token respond deepEqual is_zero c in
  (forall e,
     fst result = Throws e ->
     e = TypeError /\ snd result = [] /\
     exists domains, c = WhitelistDomain domains)
  /\ (forall via o e,
        In (Request via o) (snd result) ->
        respond via o = Throws e ->
        In (LogError "Bot settings failed" e) (snd result)).
Proof.
  destruct c as [text | payload | domains | newMenu]; cbn [perform]; cbv zeta.
  - unfold greeting. destruct (truthy text).
    + rewrite _post_cases.
      destruct (respond ThisRequest _) eqn:Hpost; simpl;
        (split; [discriminate | failed_request]).
    + rewrite _delete_cases.
      destruct (respond ModuleRequest _) eqn:Hdelete; simpl;
        (split; [discriminate | failed_request]).
  - unfold getStartedButton. destruct (truthy payload).
    + rewrite _post_cases.
      destruct (respond ThisRequest _) eqn:Hpost; simpl;
        (split; [discriminate | failed_request]).
    + rewrite _delete_cases.
      destruct (respond ModuleRequest _) eqn:Hdelete; simpl;
        (split; [discriminate | failed_request]).
  - assert (Hbad : forall r : io (@outcome num (@value num)),
              r = (Throws TypeError, []) ->
              (forall e, fst r = Throws e ->
                 e = TypeError /\ snd r = [] /\
                 exists d, WhitelistDomain domains = WhitelistDomain d)
              /\ (forall via o e, In (Request via o) (snd r) ->
                    respond via o = Throws e ->
                    In (LogError "Bot settings failed" e) (snd r))).
    { intros r ->. simpl. split.
      - intros e Heq. inversion Heq. eauto.
      - intros via o e []. }
    assert (Hposted : forall data,
              let r := _post token respond data in
              (forall e, fst r = Throws e ->
                 e = TypeError /\ snd r = [] /\
                 exists d, WhitelistDomain domains = WhitelistDomain d)
              /\ (forall via o e, In (Request via o) (snd r) ->
                    respond via o = Throws e ->
                    In (LogError "Bot settings failed" e) (snd r))).
    { intros data. cbv zeta. rewrite _post_cases.
      destruct (respond ThisRequest _) eqn:Hpost; simpl;
        (split; [discriminate | failed_request]). }
    unfold whitelistDomain.
    destruct domains as [ | | b | n | s | r o | r elems];
      try (apply Hbad; reflexivity).
    + simpl. apply Hposted.
    + destruct (strip_all elems) as [stripped|e] eqn:Hstrip.
      * apply Hposted.
      * apply Hbad. rewrite (strip_all_throws _ _ Hstrip). reflexivity.
  - rewrite menu_done_cases.
    destruct (respond ModuleRequest (get_menu_options token)) as [result|e]
      eqn:Hget.
    + destruct (updateMenu deepEqual is_zero newMenu result) as [[|]|e].
      * rewrite _post_cases.
        destruct (respond ThisRequest _) eqn:Hpost; simpl;
          (split; [discriminate | failed_request]).
      * simpl. split; [discriminate | failed_request].
      * simpl. split; [discriminate | failed_request].
    + simpl. split; [discriminate | failed_request].
Qed.

(** ** The persistent menu *)

(** X12: With the platform's answer in hand, [menu_done] posts the new menu when
    the platform holds none, or one that [deepEqual] tells from the new one,
    and sends nothing beyond the GET when it holds an equal one. *)
Theorem menu_is_posted_only_when_it_differs
  (newMenu : @value num) ref (answer : @props num) :
  respond ModuleRequest (get_menu_options token) = Returns (VObj ref answer) ->
  (forall r,
     lookup "data" answer = VArr r [] ->
     requests (snd (menu_done token respond deepEqual is_zero newMenu))
     = [ (ModuleRequest, get_menu_options token);
         (ThisRequest, post_options token [("persistent_menu", newMenu)]) ])
  /\ (forall r first others,
        lookup "data" answer = VArr r (first :: others) ->
        first <> VUndefined -> first <> VNull ->
        (deepEqual newMenu (get_prop first "persistent_menu") = true ->
         menu_done token respond deepEqual is_zero newMenu
         = (Returns VUndefined,
            [Request ModuleRequest (get_menu_options token)]))
        /\ (deepEqual newMenu (get_prop first "persistent_menu") = false ->
            requests (snd (menu_done token respond deepEqual is_zero newMenu))
            = [ (ModuleRequest, get_menu_options token);
                (ThisRequest,
                 post_options token [("persistent_menu", newMenu)]) ])).
Proof.
  intros Hget.
  assert (Hposts :
    updateMenu deepEqual is_zero newMenu (VObj ref answer) = Returns true ->
    requests (snd (menu_done token respond deepEqual is_zero newMenu))
    = [ (ModuleRequest, get_menu_options token);
        (ThisRequest, post_options token [("persistent_menu", newMenu)]) ]).
  { intros Hupdate. rewrite menu_done_cases, Hget, Hupdate, _post_cases.
    destruct (respond ThisRequest _); reflexivity. }
  split.
  - intros r Hdata. apply Hposts.
    unfold updateMenu. simpl. rewrite Hdata. reflexivity.
  - intros r first others Hdata Hundefined Hnull.
    assert (Hupdate :
      updateMenu deepEqual is_zero newMenu (VObj ref answer)
      = Returns (negb (deepEqual newMenu (get_prop first "persistent_menu")))).
    { unfold updateMenu. simpl. rewrite Hdata. simpl.
      destruct first; try congruence; reflexivity. }
    split.
    + intros Hsame. rewrite menu_done_cases, Hget, Hupdate, Hsame.
      reflexivity.
    + intros Hdiffers. apply Hposts. rewrite Hupdate, Hdiffers. reflexivity.
Qed.

(** X13: When the GET fails, [menu_done] posts nothing and fulfils; the failure
    is logged twice, by [_get] and by [menu]'s own handler.  An answer
    without [data] ends the same way, with one [TypeError] logged. *)
Theorem failed_menu_lookup_posts_nothing (newMenu : @value num) :
  (forall e,
     respond ModuleRequest (get_menu_options token) = Throws e ->
     menu_done token respond deepEqual is_zero newMenu
     = (Returns VUndefined,
        [Request ModuleRequest (get_menu_options token);
         LogError "Bot settings failed" e;
         LogError "Bot settings failed" e]))
  /\ (forall result,
        respond ModuleRequest (get_menu_options token) = Returns result ->
        get_prop result "data" = VUndefined ->
        menu_done token respond deepEqual is_zero newMenu
        = (Returns VUndefined,
           [Request ModuleRequest (get_menu_options token);
            LogError "Bot settings failed" TypeError])).
Proof.
  split.
  - intros e Hget. rewrite menu_done_cases, Hget. reflexivity.
  - intros result Hget Hdata. rewrite menu_done_cases, Hget.
    assert (Hupdate : updateMenu deepEqual is_zero newMenu result
                      = Throws TypeError).
    { unfold updateMenu, member. rewrite Hdata.
      destruct result; reflexivity. }
    rewrite Hupdate. reflexivity.
Qed.

(** ** The domain whitelist *)

Lemma strip_trailing_slash_appended d :
  strip_trailing_slash (d ++ "/") = d.
Proof.
  induction d as [|c d IH]; [reflexivity|].
  change ((String c d ++ "/")%string) with (String c (d ++ "/")).
  cbn [strip_trailing_slash]. rewrite IH.
  destruct d; reflexivity.
Qed.

Lemma strip_trailing_slash_none d :
  ends_with_slash d = false -> strip_trailing_slash d = d.
Proof.
  induction d as [|c d IH]; [reflexivity|].
  cbn [strip_trailing_slash ends_with_slash].
  destruct d as [|c' d].
  - intros ->. reflexivity.
  - intros Hends. rewrite (IH Hends). reflexivity.
Qed.

(** X14: A domain is whitelisted without the slash that ends it, one slash at
    most being dropped: given with or without that slash, alone or as an
    array of one, it leads to the same request. *)
Theorem whitelistDomain_drops_the_trailing_slash (d : string) :
  strip_trailing_slash (d ++ "/") = d
  /\ (forall r,
        whitelistDomain token respond (VArr r [VStr d])
        = whitelistDomain token respond (VStr d))
  /\ whitelistDomain token respond (VStr d)
     = _post token respond
         [("whitelisted_domains",
           VArr literal [VStr (strip_trailing_slash d)])]
  /\ (ends_with_slash d = false ->
      whitelistDomain token respond (VStr (d ++ "/"))
      = whitelistDomain token respond (VStr d)).
Proof.
  split; [apply strip_trailing_slash_appended|].
  split; [reflexivity|]. split; [reflexivity|].
  intros Hends. unfold whitelistDomain. cbn [strip_all].
  rewrite strip_trailing_slash_appended, strip_trailing_slash_none
    by assumption.
  reflexivity.
Qed.

Lemma strip_all_strings (doms : list (@value num)) :
  forallb is_string doms = true ->
  strip_all doms
  = Returns (map (fun v => VStr (strip_trailing_slash (string_of v))) doms).
Proof.
  induction doms as [|v doms IH]; simpl; [reflexivity|].
  intros Hall. apply Bool.andb_true_iff in Hall. destruct Hall as [Hv Hall].
  destruct v; try discriminate. rewrite (IH Hall). reflexivity.
Qed.

Lemma strip_all_not_strings (doms : list (@value num)) :
  forallb is_string doms = false -> strip_all doms = Throws TypeError.
Proof.
  induction doms as [|v doms IH]; simpl; [discriminate|].
  destruct v; try reflexivity. simpl. intros Hall. rewrite (IH Hall).
  reflexivity.
Qed.

(** X15: An array of domains is sent whole or not at all: when every element is
    a string, one POST carries every domain, stripped, in order; when one
    is not, [whitelistDomain] throws a [TypeError] and sends nothing. *)
Theorem whitelistDomain_is_all_or_nothing r (doms : list (@value num)) :
  (forallb is_string doms = true ->
   whitelistDomain token respond (VArr r doms)
   = _post token respond
       [("whitelisted_domains",
         VArr literal
           (map (fun v => VStr (strip_trailing_slash (string_of v))) doms))])
  /\ (forallb is_string doms = false ->
      whitelistDomain token respond (VArr r doms) = (Throws TypeError, [])).
Proof.
  unfold whitelistDomain. split; intros Hall.
  - rewrite strip_all_strings by assumption. reflexivity.
  - rewrite strip_all_not_strings by assumption. reflexivity.
Qed.

(** ** The requests *)

(** The requests a call makes: none, one, or a GET followed by a POST. *)
Lemma perform_requests (c : @settings_call num) :
  let made := requests (snd (perform token respond deepEqual is_zero c)) in
  made = []
  \/ (exists data, made = [(ThisRequest, post_options token data)])
  \/ (exists data, made = [(ModuleRequest, delete_options token data)])
  \/ made = [(ModuleRequest, get_menu_options token)]
  \/ (exists data, made = [(ModuleRequest, get_menu_options token);
                           (ThisRequest, post_options token data)]).
Proof.
  assert (Hpost : forall data,
    requests (snd (_post token respond data))
    = [(ThisRequest, post_options token data)]).
  { intros data. rewrite _post_cases.
    destruct (respond ThisRequest _); reflexivity. }
  assert (Hdelete : forall data,
    requests (snd (_delete token respond data))
    = [(ModuleRequest, delete_options token data)]).
  { intros data. rewrite _delete_cases.
    destruct (respond ModuleRequest _); reflexivity. }
  destruct c as [text | payload | domains | newMenu]; cbn [perform]; cbv zeta.
  - unfold greeting. destruct (truthy text);
      [rewrite Hpost | rewrite Hdelete]; eauto 6.
  - unfold getStartedButton. destruct (truthy payload);
      [rewrite Hpost | rewrite Hdelete]; eauto 6.
  - unfold whitelistDomain.
    destruct domains as [ | | b | n | s | r o | r elems]; try (left; reflexivity).
    + simpl. rewrite Hpost. eauto 6.
    + destruct (strip_all elems); [rewrite Hpost; eauto 6 | left; reflexivity].
  - rewrite menu_done_cases.
    destruct (respond ModuleRequest (get_menu_options token)) as [result|e].
    + destruct (updateMenu deepEqual is_zero newMenu result) as [[|]|e].
      * specialize (Hpost [("persistent_menu", newMenu)]).
        destruct (_post token respond [("persistent_menu", newMenu)])
          as [res fx].
        simpl in *. rewrite Hpost. right; right; right; right. eauto.
      * simpl. auto.
      * simpl. auto.
    + simpl. auto.
Qed.

(** X16: Whatever the method and its arguments, every request goes to the
    messenger profile endpoint with the token as [access_token], as a POST,
    a GET or a DELETE, and a call makes two requests at most. *)
Theorem every_request_is_an_authenticated_profile_call
  (c : @settings_call num) via o :
  In (via, o) (requests (snd (perform token respond deepEqual is_zero c))) ->
  uri o = messenger_profile
  /\ lookup "access_token" (qs o) = token
  /\ (method o = "POST" \/ method o = "GET" \/ method o = "DELETE")
  /\ List.length
       (requests (snd (perform token respond deepEqual is_zero c))) <= 2.
Proof.
  destruct (perform_requests c)
    as [H | [[data H] | [[data H] | [H | [data H]]]]];
    rewrite H; simpl; intros Hin;
    repeat (destruct Hin as [Hin | Hin]); try contradiction;
    inversion Hin; subst; simpl; repeat split; auto.
Qed.

(** X17: The library handed to the constructor is used for POSTs and for nothing
    else: every GET and every DELETE goes through the module's own
    [request], whatever was handed in. *)
Theorem only_posts_use_the_given_library (c : @settings_call num) via o :
  In (via, o) (requests (snd (perform token respond deepEqual is_zero c))) ->
  (via = ThisRequest <-> method o = "POST").
Proof.
  destruct (perform_requests c)
    as [H | [[data H] | [[data H] | [H | [data H]]]]];
    rewrite H; simpl; intros Hin;
    repeat (destruct Hin as [Hin | Hin]); try contradiction;
    inversion Hin; subst; simpl; split; intros Heq;
    try reflexivity; discriminate.
Qed.

End SettingsProperties.

(** * The further properties at work *)

Lemma return_means_every_queue_done_witness :
  exists st,
    run Example.config (all_succeed Example.config Example.two_senders)
        (processEvent Example.two_senders) = Some st
    /\ call st = Done (Returns [Example.item_of Example.account_linking])
    /\ forallb is_fulfilled (process st) = true.
Proof.
  eexists. split; [reflexivity|]. split; [reflexivity|].
  refine (proj1 (proj2 (return_means_every_queue_done
                          Example.config Example.two_senders
                          (all_succeed Example.config Example.two_senders)
                          _ _ eq_refl eq_refl eq_refl))).
Defined.


Lemma processor_only_sees_processable_events_witness :
  In (0, Called (Example.call_for Example.text_of_A (VStr "A")))
     (trace Example.both_in_flight)
  /\ forall y,
       In y (snd (grouping Example.two_senders)) ->
       Example.text_of_A <> message y.
Proof.
  assert (Hin : In (0, Called (Example.call_for Example.text_of_A (VStr "A")))
                   (trace Example.both_in_flight))
    by (left; reflexivity).
  split; [exact Hin|].
  exact (proj2 (processor_only_sees_processable_events
                  Example.config Example.two_senders [Job 0; Job 1]
                  Example.both_in_flight 0 _ eq_refl Hin)).
Defined.

Lemma queue_key_is_first_sender_witness :
  In (VStr "A", [Example.item_of Example.text_of_A;
                 Example.item_of Example.second_of_A])
     (entries (fst (grouping Example.two_senders)))
  /\ exists x rest,
       [Example.item_of Example.text_of_A;
        Example.item_of Example.second_of_A] = x :: rest
       /\ In x (all_items Example.two_senders)
       /\ processable (message x) = true
       /\ VStr "A" = senderIdOf (message x)
       /\ (@VStr safe_integer "A" = VNull \/ truthy (@VStr safe_integer "A") = true).
Proof.
  assert (Hin : In (VStr "A", [Example.item_of Example.text_of_A;
                               Example.item_of Example.second_of_A])
                   (entries (fst (grouping Example.two_senders))))
    by (left; reflexivity).
  split; [exact Hin|].
  exact (queue_key_is_first_sender Example.two_senders _ _ Hin).
Defined.

Lemma senderless_events_share_the_null_queue_witness :
  let body := Example.page_of [Example.text_of_A; Example.anonymous_text] in
  exists q,
    In (VNull, q) (entries (fst (grouping body)))
    /\ In (Example.item_of Example.anonymous_text) q
    /\ q = filter (in_queue VNull) (all_items body).
Proof.
  intros body.
  refine (senderless_events_share_the_null_queue
            body (Example.item_of Example.anonymous_text) _ eq_refl _).
  - right. left. reflexivity.
  - left. reflexivity.
Defined.

Lemma signature_is_the_second_field_witness :
  verifyRequest Example.hmac Example.config "{}"
    [("x-hub-signature", VStr "md5=secret:{}")] = Returns tt
  /\ verifyRequest Example.hmac Example.config "{}"
       [("x-hub-signature", VStr "sha1=secret:{}=anything")] = Returns tt
  /\ verifyRequest Example.hmac Example.config "{}"
       [("x-hub-signature", VStr "secret:{}")]
     = Throws (_getUnauthorizedError
                 "Couldn't validate the request signature.").
Proof.
  assert (Hsecret : "secret" <> "") by discriminate.
  assert (Hne : "secret:{}" <> "") by discriminate.
  split; [|split].
  - exact (proj1 (signature_is_the_second_field
                    Example.hmac Example.config "{}" "secret"
                    [("x-hub-signature", VStr "md5=secret:{}")]
                    eq_refl Hsecret eq_refl)
                 "md5" eq_refl eq_refl).
  - exact (proj1 (proj2 (signature_is_the_second_field
                           Example.hmac Example.config "{}" "secret"
                           [("x-hub-signature",
                             VStr "sha1=secret:{}=anything")]
                           eq_refl Hsecret eq_refl))
                 "sha1" "anything" eq_refl eq_refl).
  - exact (proj2 (proj2 (signature_is_the_second_field
                           Example.hmac Example.config "{}" "secret"
                           [("x-hub-signature", VStr "secret:{}")]
                           eq_refl Hsecret eq_refl))
                 "secret:{}" eq_refl Hne eq_refl).
Defined.

Lemma call_can_always_settle_witness :
  exists more st',
    run Example.config more Example.both_in_flight = Some st'
    /\ (exists r, call st' = Done r)
    /\ forallb is_settled (process st') = true.
Proof.
  exact (call_can_always_settle
           Example.config Example.two_senders [Job 0; Job 1]
           Example.both_in_flight eq_refl).
Defined.

Lemma request_failures_are_logged_not_thrown_witness :
  let token : Example.val := VStr "page-token" in
  let hello : Example.val := VStr "Hello" in
  In (LogError "Bot settings failed" Example.boom)
     (snd (greeting token Example.platform_down hello)).
Proof.
  intros token hello.
  refine (proj2 (request_failures_are_logged_not_thrown
                   token Example.platform_down Example.same_menu
                   Example.is_zero_integer (Greeting hello))
                ThisRequest
                (post_options token
                   [("greeting",
                     VArr literal
                       [VObj literal [("locale", VStr "default");
                                      ("text", hello)]])])
                Example.boom _ eq_refl).
  left. reflexivity.
Defined.

Lemma menu_is_posted_only_when_it_differs_witness :
  let token : Example.val := VStr "page-token" in
  let platform := Example.platform_with_menu (VStr "menu-1") in
  menu_done token platform Example.same_menu Example.is_zero_integer (VStr "menu-1")
  = (Returns VUndefined, [Request ModuleRequest (get_menu_options token)])
  /\ requests (snd (menu_done token platform Example.same_menu
                              Example.is_zero_integer (VStr "menu-2")))
     = [ (ModuleRequest, get_menu_options token);
         (ThisRequest,
          post_options token [("persistent_menu", VStr "menu-2")]) ].
Proof.
  intros token platform.
  assert (Hundefined : VObj 23 [("persistent_menu", @VStr safe_integer "menu-1")]
                       <> VUndefined) by discriminate.
  assert (Hnull : VObj 23 [("persistent_menu", @VStr safe_integer "menu-1")] <> VNull)
    by discriminate.
  split.
  - exact (proj1 (proj2 (menu_is_posted_only_when_it_differs
                           token platform Example.same_menu Example.is_zero_integer
                           (VStr "menu-1") 21 _ eq_refl)
                        22 _ [] eq_refl Hundefined Hnull) eq_refl).
  - exact (proj2 (proj2 (menu_is_posted_only_when_it_differs
                           token platform Example.same_menu Example.is_zero_integer
                           (VStr "menu-2") 21 _ eq_refl)
                        22 _ [] eq_refl Hundefined Hnull) eq_refl).
Defined.

Lemma failed_menu_lookup_posts_nothing_witness :
  let token : Example.val := VStr "page-token" in
  menu_done token Example.platform_down Example.same_menu Example.is_zero_integer
            (VStr "menu-1")
  = (Returns VUndefined,
     [Request ModuleRequest (get_menu_options token);
      LogError "Bot settings failed" Example.boom;
      LogError "Bot settings failed" Example.boom]).
Proof.
  intros token.
  exact (proj1 (failed_menu_lookup_posts_nothing
                  token Example.platform_down Example.same_menu
                  Example.is_zero_integer (VStr "menu-1"))
               Example.boom eq_refl).
Defined.

Lemma whitelistDomain_drops_the_trailing_slash_witness :
  let token : Example.val := VStr "page-token" in
  whitelistDomain token Example.platform_down (VStr "https://example.com/")
  = whitelistDomain token Example.platform_down (VStr "https://example.com").
Proof.
  intros token.
  exact (proj2 (proj2 (proj2 (whitelistDomain_drops_the_trailing_slash
                                token Example.platform_down
                                "https://example.com")))
               eq_refl).
Defined.

Lemma whitelistDomain_is_all_or_nothing_witness :
  let token : Example.val := VStr "page-token" in
  whitelistDomain token Example.platform_down
                  (VArr 40 [VStr "https://a.example/"; VNum (int 7)])
  = (Throws TypeError, []).
Proof.
  intros token.
  exact (proj2 (whitelistDomain_is_all_or_nothing
                  token Example.platform_down 40
                  [VStr "https://a.example/"; VNum (int 7)])
               eq_refl).
Defined.

Lemma every_request_is_an_authenticated_profile_call_witness :
  let token : Example.val := VStr "page-token" in
  let made :=
    requests (snd (perform token Example.platform_down Example.same_menu
                           Example.is_zero_integer (Greeting VNull))) in
  In (ModuleRequest,
      delete_options token [("fields", VArr literal [VStr "greeting"])]) made
  /\ List.length made <= 2.
Proof.
  intros token made.
  assert (Hin : In (ModuleRequest,
                    delete_options token
                      [("fields", VArr literal [VStr "greeting"])]) made)
    by (left; reflexivity).
  split; [exact Hin|].
  exact (proj2 (proj2 (proj2 (every_request_is_an_authenticated_profile_call
                                token Example.platform_down Example.same_menu
                                Example.is_zero_integer (Greeting VNull) _ _ Hin)))).
Defined.

Lemma only_posts_use_the_given_library_witness :
  let token : Example.val := VStr "page-token" in
  let made :=
    requests (snd (perform token Example.platform_down Example.same_menu
                           Example.is_zero_integer (GetStartedButton (VBool false)))) in
  In (ModuleRequest,
      delete_options token [("fields", VArr literal [VStr "get_started"])]) made
  /\ (@ModuleRequest = ThisRequest <-> "DELETE" = "POST").
Proof.
  intros token made.
  assert (Hin : In (ModuleRequest,
                    delete_options token
                      [("fields", VArr literal [VStr "get_started"])]) made)
    by (left; reflexivity).
  split; [exact Hin|].
  exact (only_posts_use_the_given_library
           token Example.platform_down Example.same_menu Example.is_zero_integer
           (GetStartedButton (VBool false)) _ _ Hin).
Defined.

Lemma unprintable_take_thread_control_throws_witness :
  processMessage Example.config Example.take_from_unprintable
                 (VStr "A") (VStr "page-1") = Threw TypeError
  /\ exists st',
       run Example.config [Job 0; Job 0; JoinReject 0]
           (processEvent (Example.page_of [Example.take_from_unprintable;
                                           Example.second_of_A]))
       = Some st'
       /\ call st' = Done (Throws TypeError)
       /\ nth_error (process st') 0 = Some (Rejected TypeError)
       /\ trace st' = [].
Proof.
  destruct (unprintable_take_thread_control_throws
              (NumOps := safe_integer_number)
              Example.config Example.take_from_unprintable
              eq_refl (or_introl eq_refl))
    as (Hthrows & Hrejects & _).
  split; [apply Hthrows|].
  exact (Hrejects (processEvent (Example.page_of [Example.take_from_unprintable;
                                                  Example.second_of_A]))
                  0 None (VStr "A") (VStr "page-1")
                  [Example.item_of Example.second_of_A]
                  [] eq_refl eq_refl).
Defined.

Lemma returned_call_is_quiescent_witness :
  exists st,
    run Example.config (all_succeed Example.config Example.two_senders)
        (processEvent Example.two_senders) = Some st
    /\ step Example.config (Job 0) st = None
    /\ step Example.config JoinFulfil st = None.
Proof.
  eexists. split; [reflexivity|]. split.
  - refine (returned_call_is_quiescent
              Example.config Example.two_senders
              (all_succeed Example.config Example.two_senders)
              _ _ (Job 0) eq_refl eq_refl).
  - refine (returned_call_is_quiescent
              Example.config Example.two_senders
              (all_succeed Example.config Example.two_senders)
              _ _ JoinFulfil eq_refl eq_refl).
Defined.

Lemma processor_events_have_two_shapes_witness :
  In (1, Called (Example.call_for Example.text_of_B (VStr "B")))
     (trace Example.both_in_flight)
  /\ truthy (lookup "take_thread_control" Example.text_of_B) = false.
Proof.
  assert (Hin : In (1, Called (Example.call_for Example.text_of_B (VStr "B")))
                   (trace Example.both_in_flight))
    by (right; left; reflexivity).
  split; [exact Hin|].
  exact (proj1 (proj2 (processor_events_have_two_shapes
                         Example.config Example.two_senders [Job 0; Job 1]
                         Example.both_in_flight 1 _ eq_refl Hin))).
Defined.
